(** * StreamTalk signaling core: presence store, polling transport,
    call orchestration and chat channel, embedded from the JavaScript
    sources and checked against the design document. *)

From Stdlib Require Import ZArith Lia Ascii String.
From stdpp Require Import gmap strings list fin_maps pretty.

Local Open Scope string_scope.
Local Open Scope Z_scope.
Local Open Scope list_scope.

#[local] Set Warnings "-clear-no-such-hyp".

(** ** JavaScript values the sources rely on *)

Module JS.

(** A string is truthy when it is not empty. *)
Definition truthy (s : string) : bool := negb (bool_decide (s = "")).

(** A value that may be [null]/[undefined] or a string is truthy when it is
    a non-empty string. *)
Definition present (p : option string) : bool :=
  match p with
  | Some s => truthy s
  | None => false
  end.

(** [a || b] on possibly-missing strings. *)
Definition or_else (a b : option string) : option string :=
  if present a then a else b.

(** ** [Map]: insertion-ordered, keys unique *)

Section InsertionOrderedMap.
Context {V : Type}.

Fixpoint map_get (k : string) (m : list (string * V)) : option V :=
  match m with
  | [] => None
  | (k', v) :: m' => if bool_decide (k' = k) then Some v else map_get k m'
  end.

Fixpoint map_set (k : string) (v : V) (m : list (string * V))
  : list (string * V) :=
  match m with
  | [] => [(k, v)]
  | (k', v') :: m' =>
      if bool_decide (k' = k) then (k, v) :: m'
      else (k', v') :: map_set k v m'
  end.

Fixpoint map_delete (k : string) (m : list (string * V))
  : list (string * V) :=
  match m with
  | [] => []
  | (k', v') :: m' =>
      if bool_decide (k' = k) then m' else (k', v') :: map_delete k m'
  end.
End InsertionOrderedMap.

End JS.

(** ** Presence store and signaling endpoint ([app/api/socket/route.js]) *)

Module Route.
Import JS.

Record Session := mkSession {
  s_userId : string;
  s_roomId : string;
  lastSeen : Z
}.

Record Member := mkMember {
  m_id : string;
  m_sessionId : string;
  joinedAt : Z
}.

(** The two module-level maps.  [rooms] maps a room id to its [users]
    array; [userSessions] keeps insertion order, which [leave-room] relies
    on when it deletes the first matching session. *)
Record Store := mkStore {
  rooms : gmap string (list Member);
  userSessions : list (string * Session)
}.

Definition empty_store : Store := mkStore ∅ [].

Definition fiveMinutes : Z := 5 * 60 * 1000.

(** [room.users.filter(user => user.id !== uid)] followed by the deletion
    of the room when the array became empty. *)
Definition remove_member (rid uid : string) (rs : gmap string (list Member))
  : gmap string (list Member) :=
  match rs !! rid with
  | Some us =>
      let us' := filter (λ u, m_id u ≠ uid) us in
      if bool_decide (length us' = 0%nat) then delete rid rs
      else <[rid := us']> rs
  | None => rs
  end.

(** Body of the loop of [cleanupOldSessions] for one entry. *)
Definition cleanup_entry (now : Z) (st : Store) (e : string * Session)
  : Store :=
  let '(sid, s) := e in
  if bool_decide (now - lastSeen s > fiveMinutes) then
    let rs :=
      if truthy (s_roomId s) then
        remove_member (s_roomId s) (s_userId s) (rooms st)
      else rooms st in
    mkStore rs (map_delete sid (userSessions st))
  else st.

(** The loop only ever deletes the entry it is visiting, so it visits
    exactly the entries present when it starts. *)
Definition cleanupOldSessions (now : Z) (st : Store) : Store :=
  foldl (cleanup_entry now) st (userSessions st).

Inductive Body :=
| BError (msg : string)
| BJoined (sessionId : string) (roomUsers : list string)
| BUsers (users : list string)
| BSuccess
| BToggled (event targetUserId : string) (affectedUsers : list string).

Record Response := mkResponse { status : Z; body : Body }.

Definition ok (b : Body) : Response := mkResponse 200 b.
Definition fail (code : Z) (msg : string) : Response :=
  mkResponse code (BError msg).

(** [room.users.findIndex(user => user.id === uid)] *)
Definition findIndex (uid : string) (us : list Member) : option nat :=
  fst <$> list_find (λ u, m_id u = uid) us.

(** First session of the table, in insertion order, that belongs to the
    participant and the room. *)
Fixpoint first_session_of (uid rid : string) (m : list (string * Session))
  : option string :=
  match m with
  | [] => None
  | (sid, s) :: m' =>
      if bool_decide (s_userId s = uid) && bool_decide (s_roomId s = rid)
      then Some sid else first_session_of uid rid m'
  end.

Definition ping (now : Z) (sessionId : option string) (st : Store)
  : Store * Response :=
  if present sessionId then
    let sid := default "" sessionId in
    match map_get sid (userSessions st) with
    | Some s =>
        (mkStore (rooms st)
           (map_set sid (mkSession (s_userId s) (s_roomId s) now)
              (userSessions st)),
         ok BSuccess)
    | None => (st, fail 404 "Session not found")
    end
  else (st, fail 404 "Session not found").

Definition join_room (now : Z) (newSessionId rid uid : string) (st : Store)
  : Store * Response :=
  let sessions :=
    map_set newSessionId (mkSession uid rid now) (userSessions st) in
  let us := default [] (rooms st !! rid) in
  let entry := mkMember uid newSessionId now in
  let us' :=
    match findIndex uid us with
    | Some i => <[i := entry]> us
    | None => us ++ [entry]
    end in
  (mkStore (<[rid := us']> (rooms st)) sessions,
   ok (BJoined newSessionId (m_id <$> us'))).

Definition get_room_users (rid : string) (st : Store) : Response :=
  match rooms st !! rid with
  | Some us => ok (BUsers (m_id <$> us))
  | None => ok (BUsers [])
  end.

Definition leave_room (rid uid : string) (st : Store) : Store * Response :=
  let rs := remove_member rid uid (rooms st) in
  let sessions :=
    match first_session_of uid rid (userSessions st) with
    | Some sid => map_delete sid (userSessions st)
    | None => userSessions st
    end in
  (mkStore rs sessions, ok BSuccess).

(** Query parameters of a GET request; each is [null] when absent. *)
Record Query := mkQuery {
  q_action : option string;
  q_roomId : option string;
  q_userId : option string;
  q_sessionId : option string
}.

(** [now] is the reading of [Date.now()] for the request and [rnd] the
    base-36 suffix drawn from [Math.random()]. *)
Record Clock := mkClock { now : Z; rnd : string }.

Definition fresh_session_id (c : Clock) : string :=
  "session_" +:+ pretty (now c) +:+ "_" +:+ rnd c.

(** [switch (action)] compares with [===]; a missing action reaches
    [default]. *)
Definition is_action (a : option string) (name : string) : bool :=
  bool_decide (a = Some name).

Definition GET (c : Clock) (q : Query) (st : Store) : Store * Response :=
  if is_action (q_action q) "join-room" then
    if present (q_roomId q) && present (q_userId q) then
      join_room (now c) (fresh_session_id c)
        (default "" (q_roomId q)) (default "" (q_userId q)) st
    else (st, fail 400 "Missing roomId or userId")
  else if is_action (q_action q) "get-room-users" then
    if present (q_roomId q) then
      (st, get_room_users (default "" (q_roomId q)) st)
    else (st, fail 400 "Missing roomId")
  else if is_action (q_action q) "leave-room" then
    if present (q_roomId q) && present (q_userId q) then
      leave_room (default "" (q_roomId q)) (default "" (q_userId q)) st
    else (st, fail 400 "Missing roomId or userId")
  else if is_action (q_action q) "ping" then
    ping (now c) (q_sessionId q) st
  else (st, fail 400 "Invalid action").

(** Fields destructured from the JSON body of a POST request. *)
Record Payload := mkPayload {
  p_action : option string;
  p_roomId : option string;
  p_userId : option string;
  p_sessionId : option string
}.

Definition toggle (event : string) (p : Payload) (st : Store) : Response :=
  if present (p_roomId p) && present (p_userId p) then
    match rooms st !! default "" (p_roomId p) with
    | Some us =>
        let otherUsers :=
          filter (λ u, m_id u ≠ default "" (p_userId p)) us in
        ok (BToggled event (default "" (p_userId p)) (m_id <$> otherUsers))
    | None => fail 404 "Room not found"
    end
  else fail 400 "Missing roomId or userId".

(** [None] stands for a request whose body makes [request.json()] reject or
    the destructuring throw; the [catch] answers it. *)
Definition POST (c : Clock) (req : option Payload) (st : Store)
  : Store * Response :=
  match req with
  | None => (st, fail 500 "Internal server error")
  | Some p =>
      if is_action (p_action p) "toggle-audio" then
        (st, toggle "user-toggle-audio" p st)
      else if is_action (p_action p) "toggle-video" then
        (st, toggle "user-toggle-video" p st)
      else if is_action (p_action p) "ping" then
        ping (now c) (p_sessionId p) st
      else (st, fail 400 "Invalid action")
  end.

(** Read-only views used in the statements. *)
Definition list_members (rid : string) (st : Store) : list string :=
  match body (get_room_users rid st) with
  | BUsers us => us
  | _ => []
  end.

Definition room_users_of (r : Response) : option (list string) :=
  match body r with
  | BJoined _ us => Some us
  | _ => None
  end.

(** Participants holding, in the session table, a session for the room
    whose age at time [t] does not exceed the TTL. *)
Definition unexpired_ids (t : Z) (rid : string) (st : Store) : list string :=
  (λ e, s_userId e.2) <$>
    filter (λ e, s_roomId e.2 = rid ∧ ¬ (t - lastSeen e.2 > fiveMinutes))
      (userSessions st).

Definition join_query (rid uid : string) : Query :=
  mkQuery (Some "join-room") (Some rid) (Some uid) None.
Definition leave_query (rid uid : string) : Query :=
  mkQuery (Some "leave-room") (Some rid) (Some uid) None.
Definition ping_query (sid : option string) : Query :=
  mkQuery (Some "ping") None None sid.
Definition ping_payload (sid : option string) : Payload :=
  mkPayload (Some "ping") None None sid.

(** Participants holding a session for the room in the session table. *)
Definition session_ids (rid : string) (st : Store) : list string :=
  (λ e, s_userId e.2) <$>
    filter (λ e, s_roomId e.2 = rid) (userSessions st).

(** Requests and sweeps as a history of the store. *)
Inductive Op :=
| OJoin (c : Clock) (rid uid : string)
| OLeave (c : Clock) (rid uid : string)
| OPing (c : Clock) (sid : option string)
| OSweep (t : Z).

Definition apply (st : Store) (o : Op) : Store :=
  match o with
  | OJoin c rid uid => (GET c (join_query rid uid) st).1
  | OLeave c rid uid => (GET c (leave_query rid uid) st).1
  | OPing c sid => (GET c (ping_query sid) st).1
  | OSweep t => cleanupOldSessions t st
  end.

(** A join is a first join when its participant is not listed in the room
    and the session id drawn for it is not in use. *)
Definition first_join (st : Store) (o : Op) : Prop :=
  match o with
  | OJoin c rid uid =>
      ¬ (uid ∈ list_members rid st)
      ∧ ¬ (fresh_session_id c ∈ (fst <$> userSessions st))
  | _ => True
  end.

(** Stores reached from the empty one by histories whose joins are all
    first joins. *)
Inductive reached_by_first_joins : Store → Prop :=
| reached_empty : reached_by_first_joins empty_store
| reached_step st o :
    reached_by_first_joins st → first_join st o →
    reached_by_first_joins (apply st o).

(** What the two maps owe each other: session ids are unique, a room lists
    a participant once, the participants listed are those holding a session
    for the room, a participant holds one session per room, and sessions
    name their room. *)
Record consistent (st : Store) : Prop := mkConsistent {
  keys_nodup : NoDup (fst <$> userSessions st);
  members_nodup : ∀ rid, NoDup (list_members rid st);
  members_sessions : ∀ rid uid,
    uid ∈ list_members rid st ↔
    ∃ sid s, (sid, s) ∈ userSessions st
             ∧ s_userId s = uid ∧ s_roomId s = rid;
  one_session : ∀ sid1 s1 sid2 s2,
    (sid1, s1) ∈ userSessions st → (sid2, s2) ∈ userSessions st →
    s_userId s1 = s_userId s2 → s_roomId s1 = s_roomId s2 → sid1 = sid2;
  rooms_named : ∀ sid s,
    (sid, s) ∈ userSessions st → truthy (s_roomId s) = true
}.

(** The reading of the design document: the joining participant is not
    part of the list it receives. *)
Definition join_returns_others : Prop :=
  ∀ (c : Clock) (rid uid : string) (st : Store),
    truthy rid = true → truthy uid = true →
    room_users_of (GET c (join_query rid uid) st).2
    = Some (filter (λ u, u ≠ uid)
              (list_members rid (GET c (join_query rid uid) st).1)).

(** The reading of the design document: a request that lacks a required
    parameter is answered 400. *)
Definition ping_without_session_is_400 : Prop :=
  ∀ (c : Clock) (st : Store), status (GET c (ping_query None) st).2 = 400.

End Route.

(** ** Polling transport ([store/socket.js], class [APISocket]) *)

Module Socket.
Import JS.

Inductive Status := disconnected | connecting | connected | error.

(** Calls of [trigger(event, ...args)], one constructor per event name. *)
Inductive Event :=
| EConnecting
| EConnect
| EJoinedRoom (roomId : string)
| EUserConnected (userId : string)
| EUserLeave (userId : string)
| EConnectError (message : string)
| EReconnectAttempt (attempt : nat)
| EReconnectFailed
| EDisconnect (reason : string).

Definition event_name (e : Event) : string :=
  match e with
  | EConnecting => "connecting"
  | EConnect => "connect"
  | EJoinedRoom _ => "joined-room"
  | EUserConnected _ => "user-connected"
  | EUserLeave _ => "user-leave"
  | EConnectError _ => "connect_error"
  | EReconnectAttempt _ => "reconnect_attempt"
  | EReconnectFailed => "reconnect_failed"
  | EDisconnect _ => "disconnect"
  end.

(** Requests sent to the signaling endpoint. *)
Inductive Request :=
| RJoin (roomId userId : string)
| RPing (sessionId : string)
| RGetUsers (roomId : string)
| RLeave (roomId userId : string).

Inductive Output :=
| Trig (e : Event)
| Fetch (r : Request).

(** A registered callback is a function reference; [indexOf] compares
    references, so a reference number is all the registry sees. *)
Definition Callback := nat.

(** Fields of the instance, followed by what the JavaScript runtime holds
    for it: the [roomId] captured by every [join-room] fetch that has not
    answered yet, and the delays of the [setTimeout] callbacks armed by
    [handleReconnect] that have not fired yet. *)
Record APISocket := mkSocket {
  sessionId : option string;
  roomId : option string;
  userId : option string;
  listeners : gmap string (list Callback);
  pollingInterval : bool;
  isConnected : bool;
  isConnecting : bool;
  connectionStatus : Status;
  reconnectAttempts : nat;
  lastKnownUsers : option (list string);
  joinsInFlight : list string;
  retryTimers : list Z
}.

Definition maxReconnectAttempts : nat := 5.
Definition reconnectDelay : Z := 1000.

(** [new APISocket()] *)
Definition constructor : APISocket :=
  mkSocket None None None ∅ false false false disconnected 0 None [] [].

Definition set_session (v : option string) (s : APISocket) :=
  mkSocket v (roomId s) (userId s) (listeners s) (pollingInterval s)
    (isConnected s) (isConnecting s) (connectionStatus s)
    (reconnectAttempts s) (lastKnownUsers s) (joinsInFlight s)
    (retryTimers s).
Definition set_room_user (r u : option string) (s : APISocket) :=
  mkSocket (sessionId s) r u (listeners s) (pollingInterval s)
    (isConnected s) (isConnecting s) (connectionStatus s)
    (reconnectAttempts s) (lastKnownUsers s) (joinsInFlight s)
    (retryTimers s).
Definition set_listeners (l : gmap string (list Callback)) (s : APISocket) :=
  mkSocket (sessionId s) (roomId s) (userId s) l (pollingInterval s)
    (isConnected s) (isConnecting s) (connectionStatus s)
    (reconnectAttempts s) (lastKnownUsers s) (joinsInFlight s)
    (retryTimers s).
Definition set_polling (b : bool) (s : APISocket) :=
  mkSocket (sessionId s) (roomId s) (userId s) (listeners s) b
    (isConnected s) (isConnecting s) (connectionStatus s)
    (reconnectAttempts s) (lastKnownUsers s) (joinsInFlight s)
    (retryTimers s).
Definition set_connected (b : bool) (s : APISocket) :=
  mkSocket (sessionId s) (roomId s) (userId s) (listeners s)
    (pollingInterval s) b (isConnecting s) (connectionStatus s)
    (reconnectAttempts s) (lastKnownUsers s) (joinsInFlight s)
    (retryTimers s).
Definition set_connecting (b : bool) (st : Status) (s : APISocket) :=
  mkSocket (sessionId s) (roomId s) (userId s) (listeners s)
    (pollingInterval s) (isConnected s) b st
    (reconnectAttempts s) (lastKnownUsers s) (joinsInFlight s)
    (retryTimers s).
Definition set_status (st : Status) (s : APISocket) :=
  set_connecting (isConnecting s) st s.
Definition set_attempts (n : nat) (s : APISocket) :=
  mkSocket (sessionId s) (roomId s) (userId s) (listeners s)
    (pollingInterval s) (isConnected s) (isConnecting s)
    (connectionStatus s) n (lastKnownUsers s) (joinsInFlight s)
    (retryTimers s).
Definition set_lastKnownUsers (l : option (list string)) (s : APISocket) :=
  mkSocket (sessionId s) (roomId s) (userId s) (listeners s)
    (pollingInterval s) (isConnected s) (isConnecting s)
    (connectionStatus s) (reconnectAttempts s) l (joinsInFlight s)
    (retryTimers s).
Definition set_joinsInFlight (l : list string) (s : APISocket) :=
  mkSocket (sessionId s) (roomId s) (userId s) (listeners s)
    (pollingInterval s) (isConnected s) (isConnecting s)
    (connectionStatus s) (reconnectAttempts s) (lastKnownUsers s) l
    (retryTimers s).
Definition set_retryTimers (l : list Z) (s : APISocket) :=
  mkSocket (sessionId s) (roomId s) (userId s) (listeners s)
    (pollingInterval s) (isConnected s) (isConnecting s)
    (connectionStatus s) (reconnectAttempts s) (lastKnownUsers s)
    (joinsInFlight s) l.

(** *** Subscription registry *)

Definition on (event : string) (callback : Callback) (s : APISocket)
  : APISocket :=
  let callbacks := default [] (listeners s !! event) in
  set_listeners (<[event := callbacks ++ [callback]]> (listeners s)) s.

(** [callbacks.indexOf(callback)]; [None] is the source's [-1]. *)
Definition indexOf (callback : Callback) (callbacks : list Callback)
  : option nat :=
  fst <$> list_find (λ c, c = callback) callbacks.

Definition off (event : string) (callback : Callback) (s : APISocket)
  : APISocket :=
  match listeners s !! event with
  | Some callbacks =>
      match indexOf callback callbacks with
      | Some index =>
          set_listeners (<[event := delete index callbacks]> (listeners s)) s
      | None => s
      end
  | None => s
  end.

(** [trigger] calls every registered callback in order; the [try]/[catch]
    around each call makes the next one run whatever the previous one did.
    The result lists the calls made. *)
Definition trigger (e : Event) (s : APISocket) : list (Callback * Event) :=
  match listeners s !! event_name e with
  | Some callbacks => (λ cb, (cb, e)) <$> callbacks
  | None => []
  end.

Definition registrations (event : string) (callback : Callback)
    (s : APISocket) : nat :=
  length (filter (λ c, c = callback) (default [] (listeners s !! event))).

Definition invocations (callback : Callback) (calls : list (Callback * Event))
  : nat :=
  length (filter (λ c, c.1 = callback) calls).

(** *** Membership diff of one poll *)

(** [new Set(array)]: insertion order, first occurrence kept. *)
Definition Set_add (x : string) (s : list string) : list string :=
  if bool_decide (x ∈ s) then s else s ++ [x].

Definition new_Set (l : list string) : list string :=
  foldl (λ s x, Set_add x s) [] l.

Definition poll_diff (self : option string) (last : option (list string))
    (users : list string) : list Event :=
  let currentUsers := new_Set users in
  let previousUsers := new_Set (default [] last) in
  (EUserConnected <$>
     filter (λ u, ¬ (u ∈ previousUsers) ∧ self ≠ Some u) currentUsers)
  ++ (EUserLeave <$>
        filter (λ u, ¬ (u ∈ currentUsers) ∧ self ≠ Some u) previousUsers).

(** *** Connection life cycle *)

Definition startPolling (s : APISocket) : APISocket :=
  if pollingInterval s then s else set_polling true s.

Definition stopPolling (s : APISocket) : APISocket :=
  if pollingInterval s then set_polling false s else s.

Definition handleReconnect (s : APISocket) : APISocket * list Output :=
  if bool_decide (maxReconnectAttempts ≤ reconnectAttempts s)%nat then
    (set_status error s, [Trig EReconnectFailed])
  else
    let n := S (reconnectAttempts s) in
    let s1 := set_status connecting (set_connected false (set_attempts n s)) in
    (set_retryTimers (retryTimers s1 ++ [reconnectDelay * Z.of_nat n]) s1,
     [Trig (EReconnectAttempt n)]).

(** [emit("join-room", roomId, userId)] up to its first [await]. *)
Definition emit_join (r u : string) (s : APISocket)
  : APISocket * list Output :=
  let s1 := set_connecting true connecting
              (set_room_user (Some r) (Some u) s) in
  (set_joinsInFlight (joinsInFlight s1 ++ [r]) s1,
   [Trig EConnecting; Fetch (RJoin r u)]).

(** What the awaited join request produced. *)
Inductive JoinData :=
| JoinSuccess (sessionId : string) (roomUsers : option (list string))
| JoinFailure (error : option string)
| JoinThrows (message : string).

(** The rest of [emit("join-room", ...)], run when the request answers;
    [r] is the [roomId] the call captured. *)
Definition join_answer (r : string) (d : JoinData) (s : APISocket)
  : APISocket * list Output :=
  match d with
  | JoinSuccess sid roomUsers =>
      let s1 := set_attempts 0
                  (set_connecting false connected
                     (set_connected true (set_session (Some sid) s))) in
      (startPolling s1,
       [Trig EConnect; Trig (EJoinedRoom r)]
       ++ ((λ u, Trig (EUserConnected u)) <$>
             filter (λ u, userId s ≠ Some u) (default [] roomUsers)))
  | JoinFailure err =>
      (set_connecting false error s,
       [Trig (EConnectError
                (default "Failed to join room"
                   (or_else err (Some "Failed to join room"))))])
  | JoinThrows msg => (s, [Trig (EConnectError msg)])
  end.

(** What one run of the interval callback met. *)
Inductive PollResult :=
| PollUsers (users : list string)
| PollNoUsers
| PollPingThrows
| PollUsersThrows.

(** One run of the interval callback, taken as a whole. *)
Definition poll_tick (res : PollResult) (s : APISocket)
  : APISocket * list Output :=
  if negb (present (sessionId s)) || negb (present (roomId s)) then (s, [])
  else
    let ping := Fetch (RPing (default "" (sessionId s))) in
    let get := Fetch (RGetUsers (default "" (roomId s))) in
    match res with
    | PollUsers users =>
        (set_lastKnownUsers (Some users) s,
         [ping; get]
         ++ (Trig <$> poll_diff (userId s) (lastKnownUsers s) users))
    | PollNoUsers => (s, [ping; get])
    | PollPingThrows =>
        let '(s', out) := handleReconnect s in (s', ping :: out)
    | PollUsersThrows =>
        let '(s', out) := handleReconnect s in (s', ping :: get :: out)
    end.

(** The callback armed by [handleReconnect]. *)
Definition retry_fire (s : APISocket) : APISocket * list Output :=
  if present (roomId s) && present (userId s) then
    emit_join (default "" (roomId s)) (default "" (userId s)) s
  else (s, []).

Definition disconnect (s : APISocket) : APISocket * list Output :=
  let s1 := set_connecting false disconnected
              (set_connected false (stopPolling s)) in
  (s1,
   Trig (EDisconnect "manual")
   :: (if present (roomId s1) && present (userId s1) then
         [Fetch (RLeave (default "" (roomId s1)) (default "" (userId s1)))]
       else [])).

(** *** The instance as a transition system *)

Inductive Action :=
| AEmitJoin (roomId userId : string)
| AJoinAnswer (roomId : string) (d : JoinData)
| ATick (res : PollResult)
| ARetryFire
| ADisconnect.

Fixpoint remove_first (x : string) (l : list string) : list string :=
  match l with
  | [] => []
  | y :: l' => if bool_decide (y = x) then l' else y :: remove_first x l'
  end.

(** [None]: the action cannot happen in this state (no such request in
    flight, interval not armed, no retry armed).  [ATick] is a run of the
    interval callback from its start to its end, with nothing of the
    instance running at its [await]s; [occur] below takes the callback
    apart at those [await]s. *)
Definition step (a : Action) (s : APISocket)
  : option (APISocket * list Output) :=
  match a with
  | AEmitJoin r u => Some (emit_join r u s)
  | AJoinAnswer r d =>
      if bool_decide (r ∈ joinsInFlight s) then
        Some (join_answer r d
                (set_joinsInFlight (remove_first r (joinsInFlight s)) s))
      else None
  | ATick res => if pollingInterval s then Some (poll_tick res s) else None
  | ARetryFire =>
      match retryTimers s with
      | [] => None
      | _ :: rest => Some (retry_fire (set_retryTimers rest s))
      end
  | ADisconnect => Some (disconnect s)
  end.

Fixpoint run (acts : list Action) (s : APISocket)
  : option (APISocket * list Output) :=
  match acts with
  | [] => Some (s, [])
  | a :: acts' =>
      match step a s with
      | Some (s1, out1) =>
          match run acts' s1 with
          | Some (s2, out2) => Some (s2, out1 ++ out2)
          | None => None
          end
      | None => None
      end
  end.

Definition triggered (out : list Output) : list Event :=
  omap (λ o, match o with Trig e => Some e | Fetch _ => None end) out.

Definition fetched (out : list Output) : list Request :=
  omap (λ o, match o with Fetch r => Some r | Trig _ => None end) out.

(** *** The interval callback, await by await *)

(** The callback of [startPolling] is [async]: it gives control back at
    [await this.makeAPICall("ping", ...)] and again at the [await]s of the
    [get-room-users] request, and any other code of the instance can run
    before it continues.  [clearInterval] stops the timer from starting the
    callback again; it does nothing to a callback already started.  A
    [Runtime] is the instance together with the number of callbacks suspended
    at each of the two places. *)
Record Runtime := mkRuntime {
  socket : APISocket;
  awaitingPing : nat;
  awaitingUsers : nat
}.

Definition boot : Runtime := mkRuntime constructor 0 0.

(** What the awaited [get-room-users] request produced. *)
Inductive UsersData :=
| UsersList (users : list string)
| UsersNone
| UsersThrows.

(** The callback up to its first [await]. *)
Definition poll_start (rt : Runtime) : Runtime * list Output :=
  let s := socket rt in
  if negb (present (sessionId s)) || negb (present (roomId s)) then (rt, [])
  else
    (mkRuntime s (S (awaitingPing rt)) (awaitingUsers rt),
     [Fetch (RPing (default "" (sessionId s)))]).

(** From the answer of the ping to the next [await]; [ok = false] when the
    request threw, which leads to the [catch] block. *)
Definition poll_pinged (ok : bool) (rt : Runtime) : Runtime * list Output :=
  let s := socket rt in
  if ok then
    (mkRuntime s (pred (awaitingPing rt)) (S (awaitingUsers rt)),
     [Fetch (RGetUsers (default "" (roomId s)))])
  else
    let '(s', out) := handleReconnect s in
    (mkRuntime s' (pred (awaitingPing rt)) (awaitingUsers rt), out).

(** The rest of the callback, run when [get-room-users] answers. *)
Definition poll_answered (d : UsersData) (rt : Runtime)
  : Runtime * list Output :=
  let s := socket rt in
  let '(s', out) :=
    match d with
    | UsersList users =>
        (set_lastKnownUsers (Some users) s,
         Trig <$> poll_diff (userId s) (lastKnownUsers s) users)
    | UsersNone => (s, [])
    | UsersThrows => handleReconnect s
    end in
  (mkRuntime s' (awaitingPing rt) (pred (awaitingUsers rt)), out).

(** What can happen to the instance: calls made by the application
    ([OEmitJoin], [ODisconnect]), timers firing ([OPollStart],
    [ORetryFire]) and requests answering. *)
Inductive Occurrence :=
| OEmitJoin (roomId userId : string)
| OJoinAnswer (roomId : string) (d : JoinData)
| OPollStart
| OPingAnswer (ok : bool)
| OUsersAnswer (d : UsersData)
| ORetryFire
| ODisconnect.

(** An action that leaves the suspended callbacks alone. *)
Definition lift (a : Action) (rt : Runtime)
  : option (Runtime * list Output) :=
  match step a (socket rt) with
  | Some (s', out) =>
      Some (mkRuntime s' (awaitingPing rt) (awaitingUsers rt), out)
  | None => None
  end.

(** [None]: the occurrence cannot happen in this state.  The timer starts
    the callback only while the interval is armed; an answer needs a
    callback waiting for it, armed or not. *)
Definition occur (o : Occurrence) (rt : Runtime)
  : option (Runtime * list Output) :=
  match o with
  | OEmitJoin r u => lift (AEmitJoin r u) rt
  | OJoinAnswer r d => lift (AJoinAnswer r d) rt
  | OPollStart =>
      if pollingInterval (socket rt) then Some (poll_start rt) else None
  | OPingAnswer ok =>
      match awaitingPing rt with
      | O => None
      | S _ => Some (poll_pinged ok rt)
      end
  | OUsersAnswer d =>
      match awaitingUsers rt with
      | O => None
      | S _ => Some (poll_answered d rt)
      end
  | ORetryFire => lift ARetryFire rt
  | ODisconnect => lift ADisconnect rt
  end.

Fixpoint play (os : list Occurrence) (rt : Runtime)
  : option (Runtime * list Output) :=
  match os with
  | [] => Some (rt, [])
  | o :: os' =>
      match occur o rt with
      | Some (rt1, out1) =>
          match play os' rt1 with
          | Some (rt2, out2) => Some (rt2, out1 ++ out2)
          | None => None
          end
      | None => None
      end
  end.


(** A callback waits only on an instance that has a room id: it starts
    only with one, and nothing takes the room id away.  This is why
    [poll_pinged] can read the room id it puts in the request. *)
Definition waits_with_room (rt : Runtime) : Prop :=
  (0 < awaitingPing rt + awaitingUsers rt)%nat →
  is_Some (roomId (socket rt)).

(** One run of the callback that nothing interleaves with. *)
Definition uninterrupted (res : PollResult) : list Occurrence :=
  match res with
  | PollUsers users => [OPollStart; OPingAnswer true;
                        OUsersAnswer (UsersList users)]
  | PollNoUsers => [OPollStart; OPingAnswer true; OUsersAnswer UsersNone]
  | PollPingThrows => [OPollStart; OPingAnswer false]
  | PollUsersThrows => [OPollStart; OPingAnswer true;
                        OUsersAnswer UsersThrows]
  end.



(** *** Replaying presence events *)

(** A replay fails ([None]) on a join of somebody already present or a
    departure of somebody absent. *)
Definition replay_event (acc : option (gset string)) (e : Event)
  : option (gset string) :=
  match acc with
  | None => None
  | Some members =>
      match e with
      | EUserConnected u =>
          if bool_decide (u ∈ members) then None
          else Some ({[u]} ∪ members)
      | EUserLeave u =>
          if bool_decide (u ∈ members) then Some (members ∖ {[u]})
          else None
      | _ => Some members
      end
  end.

Definition replay (es : list Event) (start : gset string)
  : option (gset string) :=
  foldl replay_event (Some start) es.

(** The set a participant's replay is compared with. *)
Definition self_set (self : option string) : gset string :=
  match self with
  | Some u => {[u]}
  | None => ∅
  end.

Definition as_set (snapshot : option (list string)) : gset string :=
  list_to_set (default [] snapshot).

Definition known_others (s : APISocket) : gset string :=
  as_set (lastKnownUsers s) ∖ self_set (userId s).

Definition is_presence (e : Event) : bool :=
  match e with
  | EUserConnected _ | EUserLeave _ => true
  | _ => false
  end.

(** The interval callback does something only when the session id and the
    room id are set. *)
Definition ready (s : APISocket) : bool :=
  present (sessionId s) && present (roomId s).

(** The snapshot kept after one run of the interval callback. *)
Definition tick_snapshot (ready : bool) (acc : option (list string))
    (res : PollResult) : option (list string) :=
  match res with
  | PollUsers us => if ready then Some us else acc
  | _ => acc
  end.

(** The snapshot a sequence of polls leaves as the last fetched one. *)
Definition last_snapshot (init : option (list string))
    (results : list PollResult) : option (list string) :=
  foldl (tick_snapshot true) init results.

(** The reading of the design document for the diff: the replay yields
    the last fetched snapshot itself. *)
Definition diff_reconstructs_snapshot : Prop :=
  ∀ (s s' : APISocket) (results : list PollResult) (out : list Output),
    ready s = true → lastKnownUsers s = None →
    run (ATick <$> results) s = Some (s', out) →
    replay (triggered out) ∅ = Some (as_set (last_snapshot None results)).


End Socket.

(** ** Call orchestration (the [Room] page component) *)

Module Room.

Record Player := mkPlayer {
  url : nat;
  muted : bool;
  playing : bool;
  audioEnabled : bool
}.

(** A call handle of the peer-connection primitive: the remote id it was
    created for, and whether [peer.call] created it here or the ["call"]
    event delivered it. *)
Record Call := mkCall { remote : string; outgoing : bool }.

(** [calls] lists every handle created so far (a handle is its position);
    [closing] lists the handles on which [close()] was called; [users] and
    [players] are the two React states, objects keyed by remote id. *)
Record State := mkState {
  calls : list Call;
  closing : list nat;
  users : gmap string nat;
  players : gmap string Player
}.

Definition initial : State := mkState [] [] ∅ ∅.

Inductive Input :=
| UserConnected (newUser : string)
| IncomingCall (callerId : string)
| CallStream (call : nat) (incomingStream : nat)
| CallClose (call : nat)
| CallError (call : nat)
| UserLeave (userId : string).

(** [handleUserConnected]: [peer.call(newUser, stream)], then the three
    [call.on] registrations, which change no state by themselves. *)
Definition handleUserConnected (newUser : string) (st : State) : State :=
  mkState (calls st ++ [mkCall newUser true]) (closing st)
    (users st) (players st).

(** [peer.on("call", ...)]: the call is answered and gets the same three
    handlers. *)
Definition handleIncomingCall (callerId : string) (st : State) : State :=
  mkState (calls st ++ [mkCall callerId false]) (closing st)
    (users st) (players st).

(** The ["stream"] handler of a call, outgoing or incoming. *)
Definition onStream (call incomingStream : nat) (st : State) : State :=
  match calls st !! call with
  | Some c =>
      mkState (calls st) (closing st)
        (<[remote c := call]> (users st))
        (<[remote c := mkPlayer incomingStream false true true]> (players st))
  | None => st
  end.

(** The ["close"] and ["error"] handlers do the same. *)
Definition onCloseOrError (call : nat) (st : State) : State :=
  match calls st !! call with
  | Some c =>
      mkState (calls st) (closing st)
        (delete (remote c) (users st)) (delete (remote c) (players st))
  | None => st
  end.

Definition handleUserLeave (userId : string) (st : State) : State :=
  let closing' :=
    match users st !! userId with
    | Some call => closing st ++ [call]
    | None => closing st
    end in
  mkState (calls st) closing'
    (delete userId (users st)) (delete userId (players st)).

Definition step (st : State) (i : Input) : State :=
  match i with
  | UserConnected u => handleUserConnected u st
  | IncomingCall u => handleIncomingCall u st
  | CallStream c s => onStream c s st
  | CallClose c | CallError c => onCloseOrError c st
  | UserLeave u => handleUserLeave u st
  end.

Definition run (inputs : list Input) (st : State) : State :=
  foldl step st inputs.

(** What the two socket subscriptions of the page forward. *)
Definition of_event (e : Socket.Event) : option Input :=
  match e with
  | Socket.EUserConnected u => Some (UserConnected u)
  | Socket.EUserLeave u => Some (UserLeave u)
  | _ => None
  end.

Definition outbound_calls_to (r : string) (st : State) : nat :=
  length (filter (λ c, outgoing c = true ∧ remote c = r) (calls st)).

Definition is_connected_event (r : string) (i : Input) : bool :=
  match i with
  | UserConnected u => bool_decide (u = r)
  | _ => false
  end.

Definition connected_events_for (r : string) (inputs : list Input) : nat :=
  length (filter (λ i, is_connected_event r i = true) inputs).

(** Every entry of [users] refers to a call with the participant it is
    filed under. *)
Definition users_consistent (st : State) : Prop :=
  ∀ r c, users st !! r = Some c →
         ∃ call, calls st !! c = Some call ∧ remote call = r.

(** The reading of the design document: an event for a remote id that
    already has its entry changes nothing. *)
Definition ignores_known_remote : Prop :=
  ∀ (st : State) (r : string),
    is_Some (users st !! r) → handleUserConnected r st = st.

End Room.

(** ** Chat over the side channel (the [useChat] hook) *)

Module Chat.
Import JS.

(** An entry of the [messages] state. *)
Record ChatMessage := mkMessage {
  msg_id : string;
  msg_text : option string;
  msg_senderId : option string;
  msg_senderName : option string;
  msg_timestamp : string;
  isOwn : bool
}.

(** The object handed to [addMessage]: the literal built by [sendMessage],
    or whatever [JSON.parse] produced; a field is [None] when the object
    does not have it. *)
Record Data := mkData {
  d_type : option string;
  d_id : option string;
  d_text : option string;
  d_senderId : option string;
  d_senderName : option string;
  d_timestamp : option string
}.

(** Readings of the clock and of the random source during one call:
    the renderings of [Date.now()] and [Math.random()] and the result of
    [new Date().toISOString()]. *)
Record Env := mkEnv { now : string; random : string; iso : string }.

Definition addMessage (myId : string) (env : Env) (message : Data)
  (prev : list ChatMessage) : list ChatMessage :=
  let newMessage :=
    mkMessage
      (default "" (or_else (d_id message)
                     (Some (now env +:+ "-" +:+ random env))))
      (d_text message)
      (d_senderId message)
      (or_else (d_senderName message) (d_senderId message))
      (default "" (or_else (d_timestamp message) (Some (iso env))))
      (bool_decide (d_senderId message = Some myId)) in
  if bool_decide (Exists (λ msg, msg_id msg = msg_id newMessage) prev)
  then prev
  else prev ++ [newMessage].

(** White space of [String.prototype.trim] among the code units below 256:
    TAB, LF, VT, FF, CR, SPACE and NBSP. *)
Definition is_space (c : ascii) : bool :=
  let n := N_of_ascii c in
  ((9 <=? n) && (n <=? 13) || (n =? 32) || (n =? 160))%N.

Fixpoint trim_start (s : string) : string :=
  match s with
  | EmptyString => EmptyString
  | String c s' => if is_space c then trim_start s' else s
  end.

Fixpoint trim_end (s : string) : string :=
  match s with
  | EmptyString => EmptyString
  | String c s' =>
    match trim_end s' with
    | EmptyString => if is_space c then EmptyString else String c EmptyString
    | t => String c t
    end
  end.

Definition trim (s : string) : string := trim_end (trim_start s).

Fixpoint whitespace_only (s : string) : bool :=
  match s with
  | EmptyString => true
  | String c s' => is_space c && whitespace_only s'
  end.

Inductive ReadyState := rs_connecting | rs_open | rs_closing | rs_closed.

(** A data channel as [sendMessage] sees it: its [readyState] and whether
    [send] returns ([true]) or throws. *)
Record Channel := mkChannel { readyState : ReadyState; accepts : bool }.

Definition is_open (entry : string * option Channel) : bool :=
  match entry.2 with
  | Some ch => match readyState ch with rs_open => true | _ => false end
  | None => false
  end.

Definition accepted (entry : string * option Channel) : bool :=
  match entry.2 with
  | Some ch => accepts ch
  | None => false
  end.

(** Outcome of one [sendMessage]: the value returned, the [messages] state
    after the local echo, and the calls of [channel.send] made, each with
    the peer id and the object serialized. *)
Record Sent := mkSent {
  result : bool;
  log : list ChatMessage;
  written : list (string * Data)
}.

(** [sendMessage], with [String.prototype.trim] as the parameter [jsTrim],
    so that nothing is assumed about which characters the language counts
    as white space.  [dataChannels] is the React state object, given by its
    entries. *)
Definition sendMessage_by (jsTrim : string → string) (myId : string)
  (env : Env) (messageText : option string)
  (dataChannels : list (string * option Channel))
  (prev : list ChatMessage) : Sent :=
  if negb (present messageText)
   || negb (truthy (jsTrim (default "" messageText)))
  then mkSent false prev []
  else
  let message :=
    mkData (Some "chat-message")
      (Some (myId +:+ "-" +:+ now env +:+ "-" +:+ random env))
      (Some (jsTrim (default "" messageText)))
      (Some myId) (Some myId) (Some (iso env)) in
  let targets := filter (λ e, is_open e = true) dataChannels in
  let sentCount := length (filter (λ e, accepted e = true) targets) in
  mkSent (bool_decide (0 < sentCount)%nat)
    (addMessage myId env message prev)
    ((λ e, (e.1, message)) <$> targets).

(** [sendMessage] on texts whose code units are below 256, where
    [String.prototype.trim] is [trim]. *)
Definition sendMessage (myId : string) (env : Env)
  (messageText : option string) (dataChannels : list (string * option Channel))
  (prev : list ChatMessage) : Sent :=
  sendMessage_by trim myId env messageText dataChannels prev.

(** [parsed] is the outcome of [JSON.parse(event.data)]: [None] when it
    throws or yields something that has no fields to read. *)
Definition handleIncomingMessage (myId : string) (env : Env)
  (parsed : option Data) (prev : list ChatMessage) : list ChatMessage :=
  match parsed with
  | None => prev
  | Some data =>
    if bool_decide (d_type data = Some "chat-message") then
      if present (d_senderId data) && present (d_text data)
         && present (d_id data)
      then addMessage myId env data prev
      else prev
    else prev
  end.

Definition well_formed (data : Data) : Prop :=
  d_type data = Some "chat-message"
  ∧ present (d_senderId data) = true
  ∧ present (d_text data) = true
  ∧ present (d_id data) = true.

(** What can happen to the log of one participant. *)
Inductive Op :=
  | OpSend (env : Env) (messageText : option string)
    (dataChannels : list (string * option Channel))
  | OpReceive (env : Env) (parsed : option Data)
  | OpClear.

Definition apply_op (myId : string) (prev : list ChatMessage) (o : Op)
  : list ChatMessage :=
  match o with
  | OpSend env t chans => log (sendMessage myId env t chans prev)
  | OpReceive env p => handleIncomingMessage myId env p prev
  | OpClear => []
  end.

Definition log_after (myId : string) (ops : list Op) : list ChatMessage :=
  foldl (apply_op myId) [] ops.

Definition entries_with (i : string) (l : list ChatMessage) : nat :=
  length (filter (λ m, msg_id m = i) l).

(** *** Election of the side that creates the channel *)

(** [a > b] on strings: code units compared left to right, a proper
    prefix being smaller. *)
Fixpoint string_gt (a b : string) : bool :=
  match a, b with
  | EmptyString, _ => false
  | String _ _, EmptyString => true
  | String x a', String y b' =>
    if (N_of_ascii y <? N_of_ascii x)%N then true
    else if (N_of_ascii x <? N_of_ascii y)%N then false
    else string_gt a' b'
  end.

Definition shouldInitiate (myId peerId : string) : bool :=
  string_gt myId peerId.

(** The participant that a side running the effect with ids
    [(myId, peerId)] expects to create the channel. *)
Definition initiator (myId peerId : string) : string :=
  if shouldInitiate myId peerId then myId else peerId.

(** [dataChannels[peerId]] is set. *)
Definition has_channel (peerId : string)
  (dataChannels : list (string * option Channel)) : bool :=
  existsb (λ e, bool_decide (e.1 = peerId) && bool_decide (is_Some e.2))
    dataChannels.

(** The effect that sets channels up: [users] gives, for each remote id,
    whether its call has a [peerConnection]; the result lists the calls of
    [setupDataChannel] with their [isInitiator] argument. *)
Definition setup_effect (peer : bool) (myId : string)
  (users : list (string * bool)) (dataChannels : list (string * option Channel))
  : list (string * bool) :=
  if negb peer || negb (truthy myId) then []
  else
    (λ e, (e.1, shouldInitiate myId e.1)) <$>
      filter (λ e : string * bool,
                (e.2 && negb (has_channel e.1 dataChannels)) = true) users.

End Chat.

(** ** Histories of the store *)

Module Presence.
Import JS Route.

(** The test of the sweep on one entry of the session table. *)
Definition expired (t : Z) (e : string * Session) : Prop :=
  t - lastSeen e.2 > fiveMinutes.

#[global] Instance expired_dec t e : Decision (expired t e) :=
  decide (t - lastSeen e.2 > fiveMinutes).

(** Session ids the sweep at time [t] finds expired among [l]. *)
Definition expired_keys (t : Z) (l : list (string * Session)) : list string :=
  fst <$> filter (expired t) l.

(** The store after a history of requests and sweeps, rejoins allowed. *)
Definition after (ops : list Op) : Store := foldl apply empty_store ops.

(** A [Map] holds a key once. *)
Definition unique_sessions (st : Store) : Prop :=
  NoDup (fst <$> userSessions st).

(** Rooms are never kept empty and never list a participant twice. *)
Definition rooms_tidy (rs : gmap string (list Member)) : Prop :=
  ∀ rid us, rs !! rid = Some us → us ≠ [] ∧ NoDup (m_id <$> us).

End Presence.

(** ** Requests of the client as the endpoint receives them *)

Module Wire.
Import JS.

(** [makeAPICall(action, data)]: a POST whose JSON body is
    [{ action, ...data }]; a field that is [undefined] is not sent. *)
Definition makeAPICall (action : string) (roomId userId sessionId : option string)
  : Route.Payload :=
  Route.mkPayload (Some action) roomId userId sessionId.

(** The cases of [emit] other than ["join-room"]: the two arguments are the
    participant id and the room id, in this order; an event without a case
    sends nothing. *)
Definition emit_relay (event : string) (first second : option string)
  : option Route.Payload :=
  if bool_decide (event = "user-toggle-audio") then
    Some (makeAPICall "toggle-audio" second first None)
  else if bool_decide (event = "user-toggle-video") then
    Some (makeAPICall "toggle-video" second first None)
  else if bool_decide (event = "user-leave") then
    Some (makeAPICall "leave-room" second first None)
  else None.

(** The requests of [disconnect] and of the interval callback that go
    through [makeAPICall]; the other two are sent with a query string. *)
Definition posted (r : Socket.Request) : option Route.Payload :=
  match r with
  | Socket.RPing sid => Some (makeAPICall "ping" None None (Some sid))
  | Socket.RLeave rid uid =>
      Some (makeAPICall "leave-room" (Some rid) (Some uid) None)
  | _ => None
  end.

(** [leaveRoom] of the [usePlayer] hook, as far as the endpoint is
    concerned; [socket] tells whether the context provides one. *)
Definition leaveRoom (socket : bool) (myId roomId : string)
  : option Route.Payload :=
  if negb socket || negb (truthy myId) then None
  else emit_relay "user-leave" (Some myId) (Some roomId).

End Wire.

(** ** Bounds of the transport *)

Module Transport.
Import JS Socket.

(** What [handleReconnect] keeps of the retry counter and of the timers it
    arms. *)
Definition backoff_bounded (s : APISocket) : Prop :=
  (reconnectAttempts s ≤ maxReconnectAttempts)%nat
  ∧ Forall (λ d, ∃ n : nat, (1 ≤ n ≤ maxReconnectAttempts)%nat
                            ∧ d = reconnectDelay * Z.of_nat n)
      (retryTimers s)
  ∧ ((0 < reconnectAttempts s)%nat → isConnected s = false).

(** A transport that reports being connected polls and has a session. *)
Definition connected_is_live (s : APISocket) : Prop :=
  isConnected s = true → pollingInterval s = true ∧ is_Some (sessionId s).

End Transport.

(** ** Side channels of the chat hook *)

Module Channels.
Import JS.

(** The channel state of the [useChat] hook: the [dataChannels] object
    (peer id to channel, a channel being its position in [channels]), the
    [connectedPeers] set, the keys held by [channelCreationRef], and what
    the browser holds: for every channel whose handlers were installed the
    peer id they captured, the peer ids [createDataChannel] was called for,
    the peer ids captured by the [ondatachannel] handlers installed, and
    the channels [close()] was called on. *)
Record Hook := mkHook {
  dataChannels : list (string * nat);
  connectedPeers : list string;
  channelCreation : list string;
  channels : list string;
  created : list string;
  listening : list string;
  closeCalls : list nat
}.

Definition initial : Hook := mkHook [] [] [] [] [] [] [].

Definition channelKey (myId peerId : string) : string :=
  myId +:+ "-" +:+ peerId.

(** [Set.prototype.delete] *)
Definition Set_delete (x : string) (s : list string) : list string :=
  filter (λ y, y ≠ x) s.

(** [setupDataChannel(peerId, peerConnection, isInitiator)]; [throws] tells
    whether [createDataChannel] throws. *)
Definition setupDataChannel (myId peerId : string) (isInitiator throws : bool)
    (h : Hook) : Hook :=
  let key := channelKey myId peerId in
  if bool_decide (key ∈ channelCreation h) then h
  else
    let marked := Socket.Set_add key (channelCreation h) in
    if isInitiator then
      if throws then
        mkHook (dataChannels h) (connectedPeers h) (Set_delete key marked)
          (channels h) (created h ++ [peerId]) (listening h) (closeCalls h)
      else
        mkHook (dataChannels h) (connectedPeers h) marked
          (channels h ++ [peerId]) (created h ++ [peerId]) (listening h)
          (closeCalls h)
    else
      mkHook (dataChannels h) (connectedPeers h) marked (channels h)
        (created h) (listening h ++ [peerId]) (closeCalls h).

(** [handleDataChannel] with the [peerId] it captured: it can run only if a
    set-up installed it. *)
Definition handleDataChannel (peerId label : string) (h : Hook) : Hook :=
  if bool_decide (peerId ∈ listening h) && bool_decide (label = "chat") then
    mkHook (dataChannels h) (connectedPeers h) (channelCreation h)
      (channels h ++ [peerId]) (created h) (listening h) (closeCalls h)
  else h.

(** [channel.onopen] *)
Definition onopen (channel : nat) (h : Hook) : Hook :=
  match channels h !! channel with
  | Some peerId =>
      mkHook (map_set peerId channel (dataChannels h))
        (Socket.Set_add peerId (connectedPeers h)) (channelCreation h)
        (channels h) (created h) (listening h) (closeCalls h)
  | None => h
  end.

(** [channel.onclose] *)
Definition onclose (myId : string) (channel : nat) (h : Hook) : Hook :=
  match channels h !! channel with
  | Some peerId =>
      mkHook (map_delete peerId (dataChannels h))
        (Set_delete peerId (connectedPeers h))
        (Set_delete (channelKey myId peerId) (channelCreation h))
        (channels h) (created h) (listening h) (closeCalls h)
  | None => h
  end.

Definition cleanupPeerDataChannel (myId peerId : string) (h : Hook) : Hook :=
  mkHook (map_delete peerId (dataChannels h))
    (Set_delete peerId (connectedPeers h))
    (Set_delete (channelKey myId peerId) (channelCreation h))
    (channels h) (created h) (listening h)
    (match map_get peerId (dataChannels h) with
     | Some channel => closeCalls h ++ [channel]
     | None => closeCalls h
     end).

Inductive Input :=
| Setup (peerId : string) (isInitiator throws : bool)
| Incoming (peerId label : string)
| Opened (channel : nat)
| Closed (channel : nat)
| Cleanup (peerId : string).

Definition step (myId : string) (h : Hook) (i : Input) : Hook :=
  match i with
  | Setup p ini thr => setupDataChannel myId p ini thr h
  | Incoming p label => handleDataChannel p label h
  | Opened c => onopen c h
  | Closed c => onclose myId c h
  | Cleanup p => cleanupPeerDataChannel myId p h
  end.

Definition run (myId : string) (inputs : list Input) (h : Hook) : Hook :=
  foldl (step myId) h inputs.

(** The inputs that take the creation mark of a peer away, given the
    channels that exist. *)
Definition releases (peerId : string) (chans : list string) (i : Input)
  : Prop :=
  match i with
  | Closed c => chans !! c = Some peerId
  | Cleanup p => p = peerId
  | _ => False
  end.

(** The calls of [createDataChannel] made for a peer. *)
Definition creations (peerId : string) (h : Hook) : nat :=
  length (filter (λ p, p = peerId) (created h)).

(** The peers of [connectedPeers] are the keys of [dataChannels]. *)
Definition peers_agree (h : Hook) : Prop :=
  NoDup (fst <$> dataChannels h)
  ∧ ∀ p, p ∈ connectedPeers h ↔ p ∈ fst <$> dataChannels h.

End Channels.

(** ** Links of the page *)

Module Links.
Import Room.

(** A remote that has a call filed in [users] has a player. *)
Definition linked_have_players (st : State) : Prop :=
  ∀ r, is_Some (users st !! r) → is_Some (players st !! r).

End Links.

(** * Properties *)

(** ** Insertion-ordered maps *)

Section AssocFacts.
Import JS.
Context {V : Type}.
Implicit Types (m : list (string * V)) (k : string) (v : V).

Lemma map_delete_elem m k0 k v :
  NoDup (fst <$> m) →
  (k, v) ∈ map_delete k0 m ↔ (k, v) ∈ m ∧ k ≠ k0.
Proof.
  induction m as [|[k' v'] m IH]; simpl.
  - intros _. rewrite elem_of_nil. tauto.
  - rewrite NoDup_cons. intros [Hk Hnd]. case_bool_decide as Hd.
    + subst k'. rewrite elem_of_cons. split.
      * intros Hin. split; [by right|]. intros ->.
        apply Hk, list_elem_of_fmap. by exists (k0, v).
      * intros [[[= -> ->]|Hin] Hne]; [done|done].
    + rewrite !elem_of_cons, IH by done. split.
      * intros [[= -> ->]|[? ?]]; [by split; [left|]|by split; [right|]].
      * intros [[[= -> ->]|?] ?]; [by left|by right].
Qed.

Lemma map_delete_keys m k0 :
  NoDup (fst <$> m) → NoDup (fst <$> map_delete k0 m).
Proof.
  induction m as [|[k' v'] m IH]; simpl; [done|].
  rewrite NoDup_cons. intros [Hk Hnd]. case_bool_decide; [done|].
  simpl. apply NoDup_cons. split; [|by apply IH].
  intros ([k v] & Heq & Hin)%list_elem_of_fmap. simpl in Heq. subst k.
  apply map_delete_elem in Hin as [Hin _]; [|done].
  apply Hk, list_elem_of_fmap. by exists (k', v).
Qed.

Lemma map_set_fresh m k v :
  ¬ (k ∈ fst <$> m) → map_set k v m = m ++ [(k, v)].
Proof.
  induction m as [|[k' v'] m IH]; simpl; [done|].
  rewrite not_elem_of_cons. intros [Hne Hk].
  rewrite bool_decide_eq_false_2 by done. by rewrite IH.
Qed.

Lemma map_set_keys m k v :
  k ∈ fst <$> m → fst <$> map_set k v m = fst <$> m.
Proof.
  induction m as [|[k' v'] m IH]; simpl; [by rewrite elem_of_nil|].
  rewrite elem_of_cons. intros Hin. case_bool_decide as Hd; simpl.
  - by subst.
  - f_equal. apply IH. by destruct Hin.
Qed.

Lemma map_set_elem m k v k1 v1 :
  NoDup (fst <$> m) → k ∈ fst <$> m →
  (k1, v1) ∈ map_set k v m ↔
  (k1 = k ∧ v1 = v) ∨ ((k1, v1) ∈ m ∧ k1 ≠ k).
Proof.
  induction m as [|[k' v'] m IH]; simpl; [by rewrite elem_of_nil|].
  rewrite NoDup_cons, elem_of_cons. intros [Hk Hnd] Hin.
  case_bool_decide as Hd.
  - subst k'. rewrite !elem_of_cons. split.
    + intros [[= -> ->]|H1]; [by left|]. right. split; [by right|].
      intros ->. apply Hk, list_elem_of_fmap. by exists (k, v1).
    + intros [[-> ->]|[[[= -> ->]|H1] Hne]]; [by left|done|by right].
  - destruct Hin as [->|Hin]; [done|].
    rewrite !elem_of_cons, IH by done. split.
    + intros [[= -> ->]|[[-> ->]|[? ?]]].
      * right. split; [by left|congruence].
      * by left.
      * right. split; [by right|done].
    + intros [[-> ->]|[[[= -> ->]|?] ?]].
      * right. by left.
      * by left.
      * right. right. by split.
Qed.

Lemma map_get_elem m k v :
  map_get k m = Some v → (k, v) ∈ m.
Proof.
  induction m as [|[k' v'] m IH]; simpl; [done|].
  case_bool_decide as Hd.
  - intros [= ->]. subst. by left.
  - intros H. right. by apply IH.
Qed.

End AssocFacts.

Lemma assoc_functional {V} (m : list (string * V)) k v1 v2 :
  NoDup (fst <$> m) → (k, v1) ∈ m → (k, v2) ∈ m → v1 = v2.
Proof.
  induction m as [|[k' v'] m IH]; simpl; [by rewrite elem_of_nil|].
  rewrite NoDup_cons, !elem_of_cons. intros [Hk Hnd] [H1|H1] [H2|H2].
  - congruence.
  - injection H1 as -> ->. destruct Hk. apply list_elem_of_fmap.
    by exists (k', v2).
  - injection H2 as -> ->. destruct Hk. apply list_elem_of_fmap.
    by exists (k', v1).
  - by apply IH.
Qed.

(** ** Signaling endpoint *)

Section RouteFacts.
Import JS Route.

Lemma findIndex_Some uid (us : list Member) (i : nat) :
  findIndex uid us = Some i → ∃ m, us !! i = Some m ∧ m_id m = uid.
Proof.
  unfold findIndex. destruct (list_find _ us) as [[j m]|] eqn:E; [|done].
  intros [= <-]. apply list_find_Some in E as (? & ? & _). eauto.
Qed.

Lemma findIndex_None uid (us : list Member) :
  findIndex uid us = None → uid ∉ m_id <$> us.
Proof.
  unfold findIndex. destruct (list_find _ us) as [[j m]|] eqn:E; [done|].
  intros _. apply list_find_None in E.
  intros (m & -> & Hm)%list_elem_of_fmap.
  by eapply Forall_forall in E.
Qed.

Lemma ids_insert_same (us : list Member) (i : nat) m e :
  us !! i = Some m → m_id e = m_id m →
  m_id <$> <[i := e]> us = m_id <$> us.
Proof.
  intros Hi He. rewrite list_fmap_insert, He.
  apply list_insert_id. by rewrite list_lookup_fmap, Hi.
Qed.

(** The ids listed by [join-room], from the ids listed before it. *)
Lemma join_room_ids t sid rid uid st :
  room_users_of (join_room t sid rid uid st).2
  = Some (if bool_decide (uid ∈ list_members rid st)
          then list_members rid st
          else list_members rid st ++ [uid]).
Proof.
  unfold join_room, room_users_of, list_members, get_room_users. simpl.
  f_equal.
  assert (Hl : m_id <$> default [] (rooms st !! rid)
               = match rooms st !! rid with
                 | Some us => m_id <$> us
                 | None => []
                 end) by (by destruct (rooms st !! rid)).
  destruct (rooms st !! rid) as [us|] eqn:Hr; simpl in *.
  - destruct (findIndex uid us) as [i|] eqn:Hf.
    + destruct (findIndex_Some _ _ _ Hf) as (m & Hi & Hm).
      rewrite (ids_insert_same us i m) by done.
      rewrite bool_decide_eq_true_2; [done|].
      apply list_elem_of_fmap. exists m. split; [done|].
      by eapply list_elem_of_lookup_2.
    + rewrite bool_decide_eq_false_2 by by apply findIndex_None.
      by rewrite fmap_app.
  - done.
Qed.

Lemma join_room_members t sid rid uid st :
  room_users_of (join_room t sid rid uid st).2
  = Some (list_members rid (join_room t sid rid uid st).1).
Proof.
  unfold join_room, room_users_of, list_members, get_room_users. simpl.
  by rewrite lookup_insert_eq.
Qed.

Lemma GET_join c rid uid st :
  truthy rid = true → truthy uid = true →
  GET c (join_query rid uid) st
  = join_room (now c) (fresh_session_id c) rid uid st.
Proof.
  intros Hr Hu. unfold GET, join_query, is_action. simpl q_action.
  rewrite bool_decide_eq_true_2 by done. simpl. by rewrite Hr, Hu.
Qed.

(** C2, as the document words it, fails: the first participant of a room
    receives its own id. *)
Lemma join_room_lists_joiner :
  room_users_of
    (GET (mkClock 1000 "k3x9q2m1a") (join_query "r1" "u1") empty_store).2
  = Some ["u1"]
  ∧ ¬ join_returns_others.
Proof.
  split; [by vm_compute|].
  intros H.
  specialize (H (mkClock 1000 "k3x9q2m1a") "r1" "u1" empty_store
                eq_refl eq_refl).
  vm_compute in H. discriminate H.
Qed.

(** C2 (amended): [join-room] answers 200 with the ids of all current
    members of the room, the joining participant included: the ids listed
    before the request, followed by the joiner when it was not yet a member.
    Leaving the joiner out of the answer gives the other members, in the
    order [get-room-users] listed them. *)
Theorem join_room_lists_all_members c rid uid st :
  truthy rid = true → truthy uid = true →
  ∃ us,
    status (GET c (join_query rid uid) st).2 = 200
    ∧ room_users_of (GET c (join_query rid uid) st).2 = Some us
    ∧ us = list_members rid (GET c (join_query rid uid) st).1
    ∧ us = (if bool_decide (uid ∈ list_members rid st)
            then list_members rid st
            else list_members rid st ++ [uid])
    ∧ uid ∈ us
    ∧ filter (λ u, u ≠ uid) us = filter (λ u, u ≠ uid) (list_members rid st).
Proof.
  intros Hr Hu. rewrite (GET_join c rid uid st Hr Hu).
  eexists. split; [done|]. split; [apply join_room_ids|].
  split; [|split; [done|]].
  - pose proof (join_room_members (now c) (fresh_session_id c) rid uid st) as H.
    rewrite join_room_ids in H. by injection H.
  - case_bool_decide as Hin; split; try done.
    + apply elem_of_app. right. by apply list_elem_of_singleton.
    + rewrite filter_app. simpl. rewrite filter_cons_False by (by intros ?).
      by rewrite filter_nil, app_nil_r.
Qed.

(** The scenario of the document: [u1] joins the empty room [r1], then [u2]
    joins it. *)
Lemma join_room_lists_all_members_witness :
  let c1 := mkClock 1000 "k3x9q2m1a" in
  let c2 := mkClock 2000 "p0o9i8u7y" in
  let st1 := (GET c1 (join_query "r1" "u1") empty_store).1 in
  ∃ us,
    status (GET c2 (join_query "r1" "u2") st1).2 = 200
    ∧ room_users_of (GET c2 (join_query "r1" "u2") st1).2 = Some us
    ∧ us = list_members "r1" (GET c2 (join_query "r1" "u2") st1).1
    ∧ us = (if bool_decide ("u2" ∈ list_members "r1" st1)
            then list_members "r1" st1
            else list_members "r1" st1 ++ ["u2"])
    ∧ "u2" ∈ us
    ∧ filter (λ u, u ≠ "u2") us
      = filter (λ u, u ≠ "u2") (list_members "r1" st1).
Proof.
  intros c1 c2 st1.
  apply (join_room_lists_all_members c2 "r1" "u2" st1); reflexivity.
Defined.

Example join_scenario :
  let c1 := mkClock 1000 "k3x9q2m1a" in
  let c2 := mkClock 2000 "p0o9i8u7y" in
  let st1 := (GET c1 (join_query "r1" "u1") empty_store).1 in
  room_users_of (GET c1 (join_query "r1" "u1") empty_store).2 = Some ["u1"]
  ∧ room_users_of (GET c2 (join_query "r1" "u2") st1).2 = Some ["u1"; "u2"].
Proof. by vm_compute. Qed.


(** *** The store under histories of first joins *)

Lemma ids_filter uid (us : list Member) :
  m_id <$> filter (λ u, m_id u ≠ uid) us
  = filter (λ i, i ≠ uid) (m_id <$> us).
Proof.
  induction us as [|u us IH]; [done|].
  rewrite fmap_cons, !filter_cons. simpl.
  repeat case_decide; try done. by rewrite fmap_cons, IH.
Qed.

Lemma list_members_remove rid uid rid' rs ss ss' :
  list_members rid' (mkStore (remove_member rid uid rs) ss)
  = if bool_decide (rid' = rid)
    then filter (λ i, i ≠ uid) (list_members rid (mkStore rs ss'))
    else list_members rid' (mkStore rs ss').
Proof.
  unfold list_members, get_room_users, remove_member. simpl.
  destruct (rs !! rid) as [us|] eqn:Hr.
  - case_bool_decide as Hl; case_bool_decide as Hd; subst.
    + rewrite lookup_delete_eq. simpl. rewrite <- ids_filter.
      apply length_zero_iff_nil in Hl. by rewrite Hl.
    + by rewrite lookup_delete_ne.
    + rewrite lookup_insert_eq. simpl. apply ids_filter.
    + by rewrite lookup_insert_ne.
  - case_bool_decide; subst; [by rewrite Hr|done].
Qed.

Lemma filter_absent uid (l : list string) :
  ¬ (uid ∈ l) → filter (λ i, i ≠ uid) l = l.
Proof.
  induction l as [|x l IH]; [done|].
  rewrite not_elem_of_cons. intros [Hx Hl].
  rewrite filter_cons_True by done. by rewrite IH.
Qed.

(** Removing a session together with the member it backs. *)
Lemma consistent_remove st sid s :
  consistent st → (sid, s) ∈ userSessions st →
  consistent (mkStore (remove_member (s_roomId s) (s_userId s) (rooms st))
                (map_delete sid (userSessions st))).
Proof.
  intros [Hk Hn Hm Ho Ht] Hin.
  assert (Hlm : ∀ rid', list_members rid'
            (mkStore (remove_member (s_roomId s) (s_userId s) (rooms st))
               (map_delete sid (userSessions st)))
          = if bool_decide (rid' = s_roomId s)
            then filter (λ i, i ≠ s_userId s) (list_members (s_roomId s) st)
            else list_members rid' st).
  { intros rid'. rewrite (list_members_remove _ _ _ _ _ (userSessions st)).
    by destruct st. }
  split; simpl.
  - by apply map_delete_keys.
  - intros rid. rewrite Hlm. case_bool_decide; [apply NoDup_filter|]; apply Hn.
  - intros rid uid. rewrite Hlm.
    assert (Hiff : (∃ sid' s', (sid', s') ∈ map_delete sid (userSessions st)
                      ∧ s_userId s' = uid ∧ s_roomId s' = rid)
                   ↔ uid ∈ list_members rid st
                     ∧ ¬ (rid = s_roomId s ∧ uid = s_userId s)).
    { rewrite Hm. split.
      - intros (sid' & s' & Hd & Hu & Hr).
        apply map_delete_elem in Hd as [Hd Hne]; [|done].
        split; [by exists sid', s'|]. intros [-> ->].
        apply Hne. by apply (Ho sid' s' sid s).
      - intros [(sid' & s' & Hd & Hu & Hr) Hne].
        exists sid', s'. split; [|done].
        apply map_delete_elem; [done|]. split; [done|]. intros ->.
        rewrite (assoc_functional _ _ _ _ Hk Hd Hin) in Hu, Hr.
        by apply Hne. }
    rewrite Hiff. case_bool_decide as Hd.
    + subst rid. rewrite list_elem_of_filter. naive_solver.
    + naive_solver.
  - intros sid1 s1 sid2 s2 H1 H2.
    apply map_delete_elem in H1 as [H1 _]; [|done].
    apply map_delete_elem in H2 as [H2 _]; [|done]. by apply Ho.
  - intros sid' s' H1. apply map_delete_elem in H1 as [H1 _]; [|done].
    by apply (Ht sid' s').
Qed.

Lemma first_session_of_Some uid rid (m : list (string * Session)) sid :
  first_session_of uid rid m = Some sid →
  ∃ s, (sid, s) ∈ m ∧ s_userId s = uid ∧ s_roomId s = rid.
Proof.
  induction m as [|[k s] m IH]; simpl; [done|].
  destruct (bool_decide (s_userId s = uid) && bool_decide (s_roomId s = rid))
    eqn:E.
  - intros [= ->]. apply andb_true_iff in E as [E1 E2].
    apply bool_decide_eq_true in E1, E2. exists s. split; [by left|done].
  - intros H. destruct (IH H) as (s' & ? & ? & ?). exists s'.
    split; [by right|done].
Qed.

Lemma first_session_of_None uid rid (m : list (string * Session)) :
  first_session_of uid rid m = None →
  ∀ sid s, (sid, s) ∈ m → ¬ (s_userId s = uid ∧ s_roomId s = rid).
Proof.
  induction m as [|[k s] m IH]; simpl; [by intros _ ?? ?%elem_of_nil|].
  destruct (bool_decide (s_userId s = uid) && bool_decide (s_roomId s = rid))
    eqn:E; [done|].
  intros H sid s' [[= -> ->]|Hin]%elem_of_cons; [|by apply (IH H sid s')].
  intros [E1 E2]. apply andb_false_iff in E as [E|E];
    apply bool_decide_eq_false in E; done.
Qed.

Lemma consistent_leave st rid uid :
  consistent st → consistent (leave_room rid uid st).1.
Proof.
  intros Hc. unfold leave_room. simpl.
  destruct (first_session_of uid rid (userSessions st)) as [sid|] eqn:E.
  - apply first_session_of_Some in E as (s & Hin & <- & <-).
    by apply consistent_remove.
  - pose proof (first_session_of_None _ _ _ E) as Hnone.
    destruct Hc as [Hk Hn Hm Ho Ht].
    assert (Habs : ¬ (uid ∈ list_members rid st)).
    { rewrite Hm. intros (sid & s & Hin & Hu & Hr). by eapply Hnone. }
    assert (Hlm : ∀ rid', list_members rid'
              (mkStore (remove_member rid uid (rooms st)) (userSessions st))
            = list_members rid' st).
    { intros rid'. rewrite (list_members_remove _ _ _ _ _ (userSessions st)).
      replace (mkStore (rooms st) (userSessions st)) with st by by destruct st.
      case_bool_decide; [|done]. subst. by apply filter_absent. }
    split; simpl; try done.
    + intros r. rewrite Hlm. apply Hn.
    + intros r u. rewrite Hlm. apply Hm.
Qed.

Lemma list_members_join t sid rid uid st rid' :
  ¬ (uid ∈ list_members rid st) →
  list_members rid' (join_room t sid rid uid st).1
  = if bool_decide (rid' = rid) then list_members rid st ++ [uid]
    else list_members rid' st.
Proof.
  intros Habs. case_bool_decide as Hd.
  - subst rid'.
    pose proof (join_room_members t sid rid uid st) as H.
    rewrite join_room_ids, bool_decide_eq_false_2 in H by done.
    by injection H.
  - unfold join_room, list_members, get_room_users. simpl.
    by rewrite lookup_insert_ne.
Qed.

Lemma consistent_join t sid rid uid st :
  consistent st → truthy rid = true →
  ¬ (uid ∈ list_members rid st) → ¬ (sid ∈ fst <$> userSessions st) →
  consistent (join_room t sid rid uid st).1.
Proof.
  intros [Hk Hn Hm Ho Ht] Hrid Habs Hfresh.
  assert (Hss : userSessions (join_room t sid rid uid st).1
                = userSessions st ++ [(sid, mkSession uid rid t)]).
  { unfold join_room. simpl. by apply map_set_fresh. }
  split.
  - rewrite Hss, fmap_app. apply NoDup_app. repeat split; [done| |].
    + intros k Hin Hin'. apply list_elem_of_singleton in Hin'. by subst.
    + apply NoDup_singleton.
  - intros r. rewrite list_members_join by done. case_bool_decide; [|done].
    apply NoDup_app. repeat split; [done| |apply NoDup_singleton].
    intros u Hin Hin'. apply list_elem_of_singleton in Hin'. by subst.
  - intros r u. rewrite list_members_join, Hss by done.
    assert (Hnew : (∃ k s, (k, s) ∈ userSessions st ++ [(sid, mkSession uid rid t)]
                           ∧ s_userId s = u ∧ s_roomId s = r)
                   ↔ u ∈ list_members r st ∨ (u = uid ∧ r = rid)).
    { rewrite Hm. split.
      - intros (k & s & [?|Heq%list_elem_of_singleton]%elem_of_app & Hu & Hr).
        + left. by exists k, s.
        + injection Heq as -> ->. simpl in *. by right.
      - intros [(k & s & ? & ? & ?)|[-> ->]].
        + exists k, s. split; [|done]. apply elem_of_app. by left.
        + exists sid, (mkSession uid rid t). split; [|done].
          apply elem_of_app. right. by apply list_elem_of_singleton. }
    rewrite Hnew. case_bool_decide as Hd.
    + subst r. rewrite elem_of_app, list_elem_of_singleton. naive_solver.
    + naive_solver.
  - intros k1 s1 k2 s2. rewrite Hss, !elem_of_app, !list_elem_of_singleton.
    intros [H1|[= -> ->]] [H2|[= -> ->]] Hu Hr; simpl in *; try done.
    + by apply (Ho k1 s1 k2 s2).
    + destruct Habs. rewrite Hm. by exists k1, s1.
    + destruct Habs. rewrite Hm. by exists k2, s2.
  - intros k s. rewrite Hss, elem_of_app, list_elem_of_singleton.
    intros [H1|[= -> ->]]; [by apply (Ht k s)|done].
Qed.

Lemma consistent_ping t sid st :
  consistent st → consistent (ping t sid st).1.
Proof.
  intros Hc. unfold ping. destruct (present sid); [|done].
  destruct (map_get _ _) as [s|] eqn:E; [|done]. simpl.
  destruct Hc as [Hk Hn Hm Ho Ht].
  set (k := default "" sid) in *.
  pose proof (map_get_elem _ _ _ E) as Hin.
  assert (Hkey : k ∈ fst <$> userSessions st).
  { apply list_elem_of_fmap. by exists (k, s). }
  assert (Hold : ∀ k1 s1,
            (k1, s1) ∈ map_set k (mkSession (s_userId s) (s_roomId s) t)
                         (userSessions st) →
            ∃ s0, (k1, s0) ∈ userSessions st
                  ∧ s_userId s0 = s_userId s1 ∧ s_roomId s0 = s_roomId s1).
  { intros k1 s1 H1. apply map_set_elem in H1 as [[-> ->]|[H1 _]]; try done.
    - by exists s.
    - by exists s1. }
  split; simpl.
  - by rewrite map_set_keys.
  - apply Hn.
  - intros r u. change (list_members r (mkStore (rooms st) _))
      with (list_members r st). rewrite Hm. split.
    + intros (k1 & s1 & H1 & Hu & Hr).
      destruct (decide (k1 = k)) as [->|Hne].
      * rewrite (assoc_functional _ _ _ _ Hk H1 Hin) in Hu, Hr.
        exists k, (mkSession (s_userId s) (s_roomId s) t).
        split; [|done]. apply map_set_elem; auto.
      * exists k1, s1. split; [|done]. apply map_set_elem; auto.
    + intros (k1 & s1 & H1 & Hu & Hr).
      destruct (Hold k1 s1 H1) as (s0 & H0 & Hu0 & Hr0).
      exists k1, s0. split; [done|]. split; congruence.
  - intros k1 s1 k2 s2 H1 H2 Hu Hr.
    destruct (Hold k1 s1 H1) as (s1' & H1' & Hu1 & Hr1).
    destruct (Hold k2 s2 H2) as (s2' & H2' & Hu2 & Hr2).
    apply (Ho k1 s1' k2 s2'); congruence.
  - intros k1 s1 H1. destruct (Hold k1 s1 H1) as (s0 & H0 & _ & Hr0).
    rewrite <- Hr0. by apply (Ht k1 s0).
Qed.

Lemma consistent_cleanup_entry t st e :
  consistent st → e ∈ userSessions st →
  consistent (cleanup_entry t st e)
  ∧ ∀ e', e' ∈ userSessions st → e'.1 ≠ e.1 →
          e' ∈ userSessions (cleanup_entry t st e).
Proof.
  intros Hc Hin. destruct e as [sid s]. unfold cleanup_entry.
  case_bool_decide; [|done].
  rewrite (rooms_named st Hc sid s Hin). split.
  - by apply consistent_remove.
  - intros [k v] Hin' Hne. simpl in *.
    apply map_delete_elem; [apply Hc|done].
Qed.

Lemma consistent_sweep_fold t (l : list (string * Session)) : ∀ st,
  consistent st → NoDup (fst <$> l) → (∀ e, e ∈ l → e ∈ userSessions st) →
  consistent (foldl (cleanup_entry t) st l).
Proof.
  induction l as [|e l IH]; intros st Hc Hnd Hsub; [done|].
  simpl. rewrite fmap_cons, NoDup_cons in Hnd. destruct Hnd as [He Hnd].
  destruct (consistent_cleanup_entry t st e Hc) as [Hc' Hkeep].
  { apply Hsub. by left. }
  apply IH; [done|done|]. intros e' Hin'. apply Hkeep.
  - apply Hsub. by right.
  - intros Heq. apply He. rewrite <- Heq. by apply list_elem_of_fmap_2.
Qed.

Lemma consistent_sweep t st :
  consistent st → consistent (cleanupOldSessions t st).
Proof.
  intros Hc. apply consistent_sweep_fold; [done|apply Hc|done].
Qed.

Lemma consistent_empty : consistent empty_store.
Proof.
  split; simpl.
  - apply NoDup_nil_2.
  - intros rid. apply NoDup_nil_2.
  - intros rid uid. unfold list_members. simpl. rewrite elem_of_nil.
    split; [done|]. by intros (? & ? & ?%elem_of_nil & _).
  - by intros ???? ?%elem_of_nil.
  - by intros ?? ?%elem_of_nil.
Qed.

Lemma reached_consistent st : reached_by_first_joins st → consistent st.
Proof.
  induction 1 as [|st o Hr IH Hf]; [apply consistent_empty|].
  destruct o as [c rid uid|c rid uid|c sid|t]; simpl.
  - destruct Hf as [Habs Hfresh].
    unfold GET, join_query, is_action. simpl q_action.
    rewrite bool_decide_eq_true_2 by done. simpl.
    destruct (truthy rid) eqn:Er; [|done].
    destruct (truthy uid) eqn:Eu; [|done]. simpl.
    by apply consistent_join.
  - unfold GET, leave_query, is_action. simpl q_action.
    rewrite !bool_decide_eq_false_2 by done.
    rewrite bool_decide_eq_true_2 by done. simpl.
    destruct (truthy rid && truthy uid); [|done].
    by apply consistent_leave.
  - change (GET c (ping_query sid) st) with (ping (now c) sid st).
    by apply consistent_ping.
  - by apply consistent_sweep.
Qed.

(** Apart from joins of a participant that is already a member, the
    histories of the store keep the member list of every room equal, up to
    order, to the participants holding a session for it. *)
Lemma members_match_sessions st rid :
  reached_by_first_joins st → list_members rid st ≡ₚ session_ids rid st.
Proof.
  intros Hc%reached_consistent. destruct Hc as [Hk Hn Hm Ho Ht].
  apply NoDup_Permutation; [apply Hn| |].
  - unfold session_ids. apply NoDup_fmap_2_strong.
    + intros [k1 s1] [k2 s2] [Hr1 H1]%list_elem_of_filter
        [Hr2 H2]%list_elem_of_filter Hu. simpl in *.
      assert (k1 = k2) as -> by (apply (Ho k1 s1 k2 s2); congruence).
      by rewrite (assoc_functional _ _ _ _ Hk H1 H2).
    + apply NoDup_filter. by eapply NoDup_fmap_1.
  - intros uid. rewrite Hm. unfold session_ids.
    rewrite list_elem_of_fmap. split.
    + intros (k & s & Hin & Hu & Hr). exists (k, s). split; [done|].
      by apply list_elem_of_filter.
    + intros ([k s] & -> & [Hr Hin]%list_elem_of_filter).
      by exists k, s.
Qed.

(** C4: a participant that joins the room it is already in gets a second
    session while the first one stays in the table.  [leave-room] then
    deletes the member and only the older session, so the table keeps a
    live session of a participant that [get-room-users] no longer lists.
    When instead the older session ages out, the sweep removes the member
    although the newer session is live. *)
Theorem rejoin_leaves_session_behind :
  let join1 := GET (mkClock 1000 "k3x9q2m1a") (join_query "r1" "u1") in
  let join2 := GET (mkClock 2000 "p0o9i8u7y") (join_query "r1" "u1") in
  let leave := GET (mkClock 3000 "zzzzzzzzz") (leave_query "r1" "u1") in
  let st2 := (join2 (join1 empty_store).1).1 in
  (list_members "r1" st2 = ["u1"]
   ∧ unexpired_ids 2500 "r1" st2 = ["u1"; "u1"])
  ∧ (list_members "r1" (leave st2).1 = []
     ∧ unexpired_ids 3500 "r1" (leave st2).1 = ["u1"])
  ∧ (list_members "r1" (cleanupOldSessions 301500 st2) = []
     ∧ unexpired_ids 301500 "r1" (cleanupOldSessions 301500 st2) = ["u1"]).
Proof. by vm_compute. Qed.

Lemma ping_status t sid st :
  status (ping t sid st).2
  = if present sid
       && bool_decide (is_Some (map_get (default "" sid) (userSessions st)))
    then 200 else 404.
Proof.
  unfold ping. destruct (present sid); [|done]. simpl.
  by destruct (map_get _ _).
Qed.

Lemma GET_ping c sid st : GET c (ping_query sid) st = ping (now c) sid st.
Proof. reflexivity. Qed.

Lemma POST_ping c sid st :
  POST c (Some (ping_payload sid)) st = ping (now c) sid st.
Proof. reflexivity. Qed.

Lemma is_action_ne a name : a ≠ Some name → is_action a name = false.
Proof. intros. unfold is_action. by rewrite bool_decide_eq_false_2. Qed.

(** C7, as the document words it, fails: a [ping] without session id is
    answered 404, the answer given to an unknown session id. *)
Lemma ping_without_session_is_404 :
  status (GET (mkClock 1000 "k3x9q2m1a") (ping_query None) empty_store).2
  = 404
  ∧ status (POST (mkClock 1000 "k3x9q2m1a") (Some (ping_payload None))
              empty_store).2 = 404
  ∧ ¬ ping_without_session_is_400.
Proof.
  split; [done|]. split; [done|].
  intros H. specialize (H (mkClock 1000 "k3x9q2m1a") empty_store).
  discriminate H.
Qed.

(** C7 (amended): [ping], by GET or by POST, answers 200 exactly when the
    session id is given and is in the session table, and 404 otherwise,
    whether the id is absent, empty or unknown; it never answers 400.  The
    other actions answer 400 whenever the room id is absent or empty, and a
    rejected body is answered 500. *)
Theorem ping_absent_or_unknown_is_404 c sid st :
  let known :=
    present sid
    && bool_decide (is_Some (map_get (default "" sid) (userSessions st))) in
  status (GET c (ping_query sid) st).2 = (if known then 200 else 404)
  ∧ status (POST c (Some (ping_payload sid)) st).2
    = (if known then 200 else 404)
  ∧ (∀ q, q_action q ≠ Some "ping" → present (q_roomId q) = false →
          status (GET c q st).2 = 400)
  ∧ (∀ p, p_action p ≠ Some "ping" → present (p_roomId p) = false →
          status (POST c (Some p) st).2 = 400)
  ∧ status (POST c None st).2 = 500.
Proof.
  intros known. rewrite GET_ping, POST_ping, ping_status.
  split; [done|]. split; [done|]. split; [|split; [|done]].
  - intros q Hq Hr. unfold GET. rewrite Hr. simpl.
    rewrite (is_action_ne _ "ping" Hq).
    by repeat destruct (is_action _ _).
  - intros p Hp Hr. unfold POST, toggle. rewrite Hr. simpl.
    rewrite (is_action_ne _ "ping" Hp).
    by repeat destruct (is_action _ _).
Qed.

Lemma ping_absent_or_unknown_is_404_witness :
  let c := mkClock 5000 "k3x9q2m1a" in
  let st := (GET (mkClock 1000 "k3x9q2m1a") (join_query "r1" "u1")
               empty_store).1 in
  status (GET c (ping_query (Some "session_1000_k3x9q2m1a")) st).2 = 200
  ∧ status (GET c (ping_query (Some "session_77_unknown")) st).2 = 404
  ∧ status (GET c (ping_query None) st).2 = 404
  ∧ status (GET c (mkQuery (Some "join-room") None (Some "u1") None) st).2
    = 400
  ∧ status (POST c (Some (mkPayload (Some "toggle-audio") None (Some "u1")
                            None)) st).2 = 400.
Proof.
  intros c st.
  pose proof (ping_absent_or_unknown_is_404 c
                (Some "session_1000_k3x9q2m1a") st) as (H1 & _).
  pose proof (ping_absent_or_unknown_is_404 c
                (Some "session_77_unknown") st) as (H2 & _).
  pose proof (ping_absent_or_unknown_is_404 c None st)
    as (H3 & _ & H4 & H5 & _).
  split; [exact H1|]. split; [exact H2|]. split; [exact H3|].
  split; [apply H4; [discriminate|reflexivity]
         |apply H5; [discriminate|reflexivity]].
Defined.

End RouteFacts.

(** ** Subscription registry of the transport *)

Section RegistryFacts.
Import JS Socket.

Lemma indexOf_decompose cb (l : list Callback) :
  match indexOf cb l with
  | Some i =>
      ∃ l1 l2, l = l1 ++ cb :: l2 ∧ ¬ (cb ∈ l1) ∧ i = length l1
               ∧ delete i l = l1 ++ l2
  | None => cb ∉ l
  end.
Proof.
  unfold indexOf. induction l as [|x l IH]; simpl.
  - apply not_elem_of_nil.
  - case_decide as Hx.
    + subst x. simpl. by exists [], l; repeat split; try apply not_elem_of_nil.
    + destruct (list_find _ l) as [[i y]|]; simpl in *.
      * destruct IH as (l1 & l2 & -> & Hn & -> & Hd).
        exists (x :: l1), l2. repeat split; simpl; try done.
        -- rewrite not_elem_of_cons. split; [congruence|done].
        -- by rewrite Hd.
      * rewrite not_elem_of_cons. split; [congruence|done].
Qed.

Lemma count_absent cb (l : list Callback) :
  cb ∉ l → filter (λ c, c = cb) l = [].
Proof.
  intros H. induction l as [|x l IH]; [done|].
  apply not_elem_of_cons in H as [Hx Hl].
  rewrite filter_cons_False by congruence. by apply IH.
Qed.

Lemma invocations_fmap cb e (l : list Callback) :
  invocations cb ((λ c, (c, e)) <$> l) = length (filter (λ c, c = cb) l).
Proof.
  unfold invocations. induction l as [|x l IH]; [done|].
  rewrite fmap_cons, !filter_cons. simpl.
  repeat case_decide; simpl; try done. by rewrite IH.
Qed.

Lemma invocations_trigger cb e s :
  invocations cb (trigger e s) = registrations (event_name e) cb s.
Proof.
  unfold trigger, registrations.
  destruct (listeners s !! event_name e); [apply invocations_fmap | done].
Qed.

Lemma registrations_on ev cb cb' s :
  registrations ev cb' (on ev cb s)
  = (registrations ev cb' s + if bool_decide (cb = cb') then 1 else 0)%nat.
Proof.
  unfold registrations, on. simpl. rewrite lookup_insert_eq. simpl.
  rewrite filter_app, length_app. f_equal.
  case_bool_decide.
  - by rewrite filter_cons_True.
  - by rewrite filter_cons_False.
Qed.

Lemma registrations_off ev cb cb' s :
  registrations ev cb' (off ev cb s)
  = if bool_decide (cb = cb') then pred (registrations ev cb' s)
    else registrations ev cb' s.
Proof.
  unfold registrations, off.
  destruct (listeners s !! ev) as [l|] eqn:Hl; simpl.
  - pose proof (indexOf_decompose cb l) as H.
    destruct (indexOf cb l) as [i|]; simpl.
    + destruct H as (l1 & l2 & -> & Hn & -> & Hd).
      rewrite lookup_insert_eq, Hd. simpl.
      rewrite !filter_app, !length_app.
      case_bool_decide as Hc.
      * subst cb'. rewrite filter_cons_True by done. simpl. lia.
      * by rewrite filter_cons_False by done.
    + rewrite Hl. simpl. case_bool_decide as Hc; [|done].
      subst cb'. by rewrite (count_absent cb l H).
  - rewrite Hl. simpl. by case_bool_decide.
Qed.

(** C10: the registry counts registrations.  A callback registered [n]
    times for an event is called [n] times by [trigger]; every [on] adds
    one registration, also of a callback already registered; one [off]
    removes one registration, the first in registration order, so that the
    callback is then called [n - 1] times, and leaves the registrations of
    the other callbacks alone. *)
Theorem registry_counts_registrations (event : string) (cb : Callback)
    (s : APISocket) :
  let n := registrations event cb s in
  (∀ e, event_name e = event → invocations cb (trigger e s) = n)
  ∧ (∀ k, registrations event cb (Nat.iter k (on event cb) s) = (k + n)%nat)
  ∧ registrations event cb (off event cb s) = pred n
  ∧ (∀ e, event_name e = event →
          invocations cb (trigger e (off event cb s)) = pred n)
  ∧ (∀ cb', cb' ≠ cb →
            registrations event cb' (off event cb s)
            = registrations event cb' s)
  ∧ (∀ l1 l2, listeners s !! event = Some (l1 ++ cb :: l2) → cb ∉ l1 →
              listeners (off event cb s) !! event = Some (l1 ++ l2)).
Proof.
  intros n. repeat split.
  - intros e <-. apply invocations_trigger.
  - intros k. induction k as [|k IH]; [done|]. simpl.
    rewrite registrations_on, IH, bool_decide_eq_true_2 by done. lia.
  - by rewrite registrations_off, bool_decide_eq_true_2.
  - intros e <-.
    by rewrite invocations_trigger, registrations_off, bool_decide_eq_true_2.
  - intros cb' Hne. by rewrite registrations_off, bool_decide_eq_false_2.
  - intros l1 l2 Hl Hn. unfold off. rewrite Hl.
    pose proof (indexOf_decompose cb (l1 ++ cb :: l2)) as H.
    destruct (indexOf cb _) as [i|].
    + destruct H as (k1 & k2 & Heq & Hk & -> & Hd). simpl.
      rewrite lookup_insert_eq, Hd. f_equal.
      assert (k1 = l1 ∧ k2 = l2) as [-> ->]; [|done].
      clear Hd Hl. revert k1 Heq Hk.
      induction l1 as [|x l1 IH]; intros [|y k1] Heq Hk; simpl in *.
      * by injection Heq.
      * injection Heq as <- _. by apply not_elem_of_cons in Hk as [? _].
      * injection Heq as -> _. by apply not_elem_of_cons in Hn as [? _].
      * injection Heq as -> Heq.
        apply not_elem_of_cons in Hn as [_ Hn].
        apply not_elem_of_cons in Hk as [_ Hk].
        by destruct (IH Hn k1 Heq Hk) as [-> ->].
    + exfalso. apply H, elem_of_app. right. apply elem_of_cons. by left.
Qed.

(** A callback registered three times among others, then removed once. *)
Lemma registry_counts_registrations_witness :
  let s := on "user-connected" 7%nat
             (on "user-connected" 7%nat
                (on "user-connected" 4%nat
                   (on "user-connected" 7%nat constructor))) in
  invocations 7%nat (trigger (EUserConnected "u1") s) = 3%nat
  ∧ invocations 7%nat (trigger (EUserConnected "u1") (off "user-connected" 7%nat s))
    = 2%nat
  ∧ registrations "user-connected" 4%nat (off "user-connected" 7%nat s) = 1%nat
  ∧ listeners (off "user-connected" 7%nat s) !! "user-connected"
    = Some [4%nat; 7%nat; 7%nat].
Proof.
  intros s.
  pose proof (registry_counts_registrations "user-connected" 7%nat s)
    as (H1 & _ & _ & H4 & H5 & H6).
  split; [exact (H1 (EUserConnected "u1") eq_refl)|].
  split; [exact (H4 (EUserConnected "u1") eq_refl)|].
  split; [apply (H5 4%nat); discriminate|].
  apply (H6 [] [4%nat; 7%nat; 7%nat]); [reflexivity|apply not_elem_of_nil].
Defined.

End RegistryFacts.

(** ** Membership diff of the polling loop *)

Section DiffFacts.
Import JS Socket.

Lemma Set_add_elem x y (acc : list string) :
  x ∈ Set_add y acc ↔ x = y ∨ x ∈ acc.
Proof.
  unfold Set_add. case_bool_decide.
  - split; [by right | by intros [->|?]].
  - rewrite elem_of_app, list_elem_of_singleton. tauto.
Qed.

Lemma Set_add_NoDup y (acc : list string) :
  NoDup acc → NoDup (Set_add y acc).
Proof.
  intros Hnd. unfold Set_add. case_bool_decide as Hy; [done|].
  apply NoDup_app. repeat split; [done| |apply NoDup_singleton].
  intros x Hx Hxy. apply list_elem_of_singleton in Hxy. by subst x.
Qed.

Lemma new_Set_fold (l acc : list string) :
  NoDup acc →
  NoDup (foldl (λ s x, Set_add x s) acc l)
  ∧ ∀ x, x ∈ foldl (λ s x, Set_add x s) acc l ↔ x ∈ acc ∨ x ∈ l.
Proof.
  revert acc. induction l as [|y l IH]; intros acc Hnd; simpl.
  - split; [done|]. intros x. rewrite elem_of_nil. tauto.
  - destruct (IH (Set_add y acc) (Set_add_NoDup y acc Hnd)) as [H1 H2].
    split; [done|]. intros x.
    rewrite H2, Set_add_elem, elem_of_cons. tauto.
Qed.

Lemma new_Set_NoDup l : NoDup (new_Set l).
Proof. apply new_Set_fold, NoDup_nil_2. Qed.

Lemma new_Set_elem x l : x ∈ new_Set l ↔ x ∈ l.
Proof.
  unfold new_Set. destruct (new_Set_fold l [] (NoDup_nil_2)) as [_ H].
  rewrite H, elem_of_nil. tauto.
Qed.

Lemma replay_failed es : foldl replay_event None es = None.
Proof. by induction es. Qed.

Lemma replay_app es1 es2 start :
  replay (es1 ++ es2) start
  = match replay es1 start with
    | Some mid => replay es2 mid
    | None => None
    end.
Proof.
  unfold replay. rewrite foldl_app.
  destruct (foldl replay_event (Some start) es1); [done|apply replay_failed].
Qed.

Lemma replay_cons e es start :
  replay (e :: es) start
  = match replay_event (Some start) e with
    | Some mid => replay es mid
    | None => None
    end.
Proof.
  unfold replay. cbn [foldl].
  destruct (replay_event (Some start) e); [done|apply replay_failed].
Qed.

Lemma replay_joins (adds : list string) (start : gset string) :
  NoDup adds → (∀ u, u ∈ adds → u ∉ start) →
  replay (EUserConnected <$> adds) start = Some (list_to_set adds ∪ start).
Proof.
  revert start. induction adds as [|u adds IH]; intros start Hnd Hfresh.
  - simpl. unfold replay. simpl. f_equal. set_solver.
  - apply NoDup_cons in Hnd as [Hu Hnd].
    rewrite fmap_cons, replay_cons. simpl.
    rewrite bool_decide_eq_false_2 by (apply Hfresh; by left).
    rewrite IH; [f_equal; set_solver|done|].
    intros v Hv. specialize (Hfresh v (list_elem_of_further _ _ _ Hv)).
    set_solver.
Qed.

Lemma replay_leaves (dels : list string) (start : gset string) :
  NoDup dels → (∀ u, u ∈ dels → u ∈ start) →
  replay (EUserLeave <$> dels) start = Some (start ∖ list_to_set dels).
Proof.
  revert start. induction dels as [|u dels IH]; intros start Hnd Hin.
  - simpl. unfold replay. simpl. f_equal. set_solver.
  - apply NoDup_cons in Hnd as [Hu Hnd].
    rewrite fmap_cons, replay_cons. simpl.
    rewrite bool_decide_eq_true_2 by (apply Hin; by left).
    rewrite IH; [f_equal; set_solver|done|].
    intros v Hv. specialize (Hin v (list_elem_of_further _ _ _ Hv)).
    set_solver.
Qed.

Lemma self_set_elem self u : u ∈ self_set self ↔ self = Some u.
Proof.
  destruct self as [v|]; simpl.
  - rewrite elem_of_singleton. split; congruence.
  - rewrite elem_of_empty. split; [done|discriminate].
Qed.

(** One successful poll: replaying its events takes the previous snapshot
    without the local id to the new snapshot without the local id. *)
Lemma poll_diff_replay self last users :
  replay (poll_diff self last users) (as_set last ∖ self_set self)
  = Some (as_set (Some users) ∖ self_set self).
Proof.
  unfold poll_diff, as_set. simpl.
  set (prev := default [] last).
  rewrite replay_app, replay_joins; first last.
  { intros u [[Hp Hs] _]%list_elem_of_filter.
    rewrite elem_of_difference, elem_of_list_to_set, <- (new_Set_elem u prev).
    tauto. }
  { apply NoDup_filter, new_Set_NoDup. }
  rewrite replay_leaves; first last.
  { intros u [[Hc Hs] Hp]%list_elem_of_filter.
    apply elem_of_union. right.
    rewrite elem_of_difference, elem_of_list_to_set, self_set_elem.
    split; [by apply new_Set_elem|done]. }
  { apply NoDup_filter, new_Set_NoDup. }
  f_equal. apply set_eq. intros u.
  rewrite !elem_of_difference, elem_of_union, !elem_of_list_to_set,
    !list_elem_of_filter, !new_Set_elem, elem_of_difference,
    elem_of_list_to_set, self_set_elem.
  destruct (decide (u ∈ users)), (decide (u ∈ prev)),
    (decide (self = Some u)); tauto.
Qed.

Lemma triggered_Trig (es : list Event) : triggered (Trig <$> es) = es.
Proof.
  unfold triggered. induction es as [|e es IH]; [done|].
  csimpl. by rewrite IH.
Qed.

Lemma triggered_app out1 out2 :
  triggered (out1 ++ out2) = triggered out1 ++ triggered out2.
Proof. apply omap_app. Qed.

(** What one run of the interval callback does to the fields the diff
    depends on, and to the replay. *)
Lemma poll_tick_replay res s :
  replay (triggered (poll_tick res s).2) (known_others s)
  = Some (known_others (poll_tick res s).1)
  ∧ lastKnownUsers (poll_tick res s).1
    = tick_snapshot (ready s) (lastKnownUsers s) res
  ∧ userId (poll_tick res s).1 = userId s
  ∧ ready (poll_tick res s).1 = ready s
  ∧ pollingInterval (poll_tick res s).1 = pollingInterval s.
Proof.
  unfold poll_tick, tick_snapshot, ready.
  destruct (present (sessionId s)) eqn:Hs, (present (roomId s)) eqn:Hr;
    simpl; try (rewrite ?Hs, ?Hr; by destruct res).
  destruct res as [us| | |]; simpl; rewrite ?Hs, ?Hr; try done.
  - rewrite triggered_Trig. split; [|done].
    apply (poll_diff_replay (userId s) (lastKnownUsers s) us).
  - unfold handleReconnect. case_bool_decide; simpl; by rewrite ?Hs, ?Hr.
  - unfold handleReconnect. case_bool_decide; simpl; by rewrite ?Hs, ?Hr.
Qed.

Lemma run_ticks results : ∀ s,
  pollingInterval s = true →
  ∃ s' out,
    run (ATick <$> results) s = Some (s', out)
    ∧ replay (triggered out) (known_others s) = Some (known_others s')
    ∧ lastKnownUsers s'
      = foldl (tick_snapshot (ready s)) (lastKnownUsers s) results
    ∧ userId s' = userId s.
Proof.
  induction results as [|res results IH]; intros s Hp.
  - exists s, []. by repeat split.
  - destruct (poll_tick_replay res s) as (Hr & Hl & Hu & Hs & Hi).
    rewrite fmap_cons. cbn [run step]. rewrite Hp.
    destruct (poll_tick res s) as [s1 out1] eqn:E. simpl in *.
    destruct (IH s1) as (s2 & out2 & Hrun & Hr2 & Hl2 & Hu2);
      [congruence|].
    exists s2, (out1 ++ out2). rewrite Hrun. split; [done|].
    split; [|split; [|congruence]].
    + rewrite triggered_app, replay_app, Hr. exact Hr2.
    + by rewrite Hl2, Hl, Hs.
Qed.

Lemma known_others_fresh s : lastKnownUsers s = None → known_others s = ∅.
Proof. unfold known_others, as_set. intros ->. simpl. set_solver. Qed.

(** C6, as the document words it, fails: the local participant is part of
    every snapshot the endpoint returns to it, and no event is emitted for
    it, so the replay misses it. *)
Lemma poll_diff_omits_local_id :
  (∃ s out0 s' out,
      run [AEmitJoin "r1" "u1";
           AJoinAnswer "r1"
             (JoinSuccess "session_1000_k3x9q2m1a" (Some ["u1"]))]
        constructor = Some (s, out0)
      ∧ ready s = true ∧ lastKnownUsers s = None
      ∧ run [ATick (PollUsers ["u1"; "u2"])] s = Some (s', out)
      ∧ triggered out = [EUserConnected "u2"]
      ∧ replay (triggered out) ∅ = Some {["u2"]}
      ∧ replay (triggered out) ∅ ≠ Some (list_to_set ["u1"; "u2"]))
  ∧ ¬ diff_reconstructs_snapshot.
Proof.
  assert (Hne : Some ({["u2"]} : gset string)
                ≠ Some (list_to_set ["u1"; "u2"])).
  { intros H. apply (inj Some) in H.
    assert (Hin : "u1" ∈ ({["u2"]} : gset string)).
    { rewrite H. set_solver. }
    set_solver. }
  split.
  - do 4 eexists. split; [by vm_compute|]. split; [done|]. split; [done|].
    split; [by vm_compute|]. split; [done|]. split; [|exact Hne].
    unfold replay. simpl. by rewrite bool_decide_eq_false_2 by set_solver.
  - intros H. apply Hne.
    set (s := mkSocket (Some "session_1000_k3x9q2m1a") (Some "r1") (Some "u1")
                ∅ true true false connected 0 None [] []).
    specialize (H s (poll_tick (PollUsers ["u1"; "u2"]) s).1
                  [PollUsers ["u1"; "u2"]]
                  (poll_tick (PollUsers ["u1"; "u2"]) s).2
                  eq_refl eq_refl eq_refl).
    etrans; [|exact H]. symmetry. unfold replay. simpl.
    by rewrite bool_decide_eq_false_2 by set_solver.
Qed.

(** C6 (amended): for every sequence of polls made by a transport that has
    its session and has fetched no snapshot yet, the [user-connected] and
    [user-leave] events emitted, replayed from the empty set, never add a
    present member nor remove an absent one, and yield the last fetched
    snapshot without the local participant's id.  A poll that fetched no
    member list, because a request failed or the answer had none, keeps the
    snapshot and emits no presence event. *)
Theorem poll_diff_replays_to_others s results :
  pollingInterval s = true → ready s = true → lastKnownUsers s = None →
  (∃ s' out,
      run (ATick <$> results) s = Some (s', out)
      ∧ lastKnownUsers s' = last_snapshot None results
      ∧ replay (triggered out) ∅
        = Some (as_set (last_snapshot None results) ∖ self_set (userId s)))
  ∧ (∀ s0 res, (∀ us, res ≠ PollUsers us) →
               lastKnownUsers (poll_tick res s0).1 = lastKnownUsers s0
               ∧ filter (λ e, is_presence e = true)
                   (triggered (poll_tick res s0).2) = []).
Proof.
  intros Hp Hr Hl. split.
  - destruct (run_ticks results s Hp) as (s' & out & Hrun & Hrep & Hlast & Hu).
    exists s', out. rewrite Hr, Hl in Hlast.
    rewrite (known_others_fresh s Hl) in Hrep.
    split; [done|]. split; [done|].
    rewrite Hrep. unfold known_others. by rewrite Hlast, Hu.
  - intros s0 res Hres. unfold poll_tick.
    destruct (negb (present (sessionId s0)) || negb (present (roomId s0)));
      [done|].
    destruct res as [us| | |]; simpl; [by destruct (Hres us)|done| |];
      unfold handleReconnect; by case_bool_decide.
Qed.

Lemma poll_diff_replays_to_others_witness :
  let s := mkSocket (Some "session_1000_k3x9q2m1a") (Some "r1") (Some "u1")
             ∅ true true false connected 0 None [] [] in
  let results := [PollUsers ["u1"; "u2"]; PollUsersThrows;
                  PollUsers ["u1"; "u3"]] in
  (∃ s' out,
      run (ATick <$> results) s = Some (s', out)
      ∧ lastKnownUsers s' = last_snapshot None results
      ∧ replay (triggered out) ∅
        = Some (as_set (last_snapshot None results) ∖ self_set (userId s)))
  ∧ (∀ s0 res, (∀ us, res ≠ PollUsers us) →
               lastKnownUsers (poll_tick res s0).1 = lastKnownUsers s0
               ∧ filter (λ e, is_presence e = true)
                   (triggered (poll_tick res s0).2) = []).
Proof.
  intros s results.
  apply (poll_diff_replays_to_others s results); reflexivity.
Defined.

Example poll_diff_scenario :
  let s := mkSocket (Some "session_1000_k3x9q2m1a") (Some "r1") (Some "u1")
             ∅ true true false connected 0 None [] [] in
  (triggered <$>
     (snd <$> run (ATick <$> [PollUsers ["u1"; "u2"]; PollUsersThrows;
                              PollUsers ["u1"; "u3"]]) s))
  = Some [EUserConnected "u2"; EReconnectAttempt 1;
          EUserConnected "u3"; EUserLeave "u2"].
Proof. by vm_compute. Qed.

End DiffFacts.

(** ** Cancellation of the transport *)

Section DisconnectFacts.
Import JS Socket.

Lemma triggered_connected (us : list string) :
  triggered ((λ u, Trig (EUserConnected u)) <$> us) = EUserConnected <$> us.
Proof.
  unfold triggered. induction us as [|u us IH]; [done|].
  csimpl. by rewrite IH.
Qed.

(** A run of the interval callback that nothing interleaves with is
    [poll_tick]. *)
Lemma uninterrupted_poll_is_poll_tick res rt :
  pollingInterval (socket rt) = true → ready (socket rt) = true →
  ∃ rt' out,
    play (uninterrupted res) rt = Some (rt', out)
    ∧ (socket rt', out) = poll_tick res (socket rt)
    ∧ awaitingPing rt' = awaitingPing rt
    ∧ awaitingUsers rt' = awaitingUsers rt.
Proof.
  destruct rt as [s p u]. simpl. intros Hp Hr.
  unfold ready in Hr. apply andb_prop in Hr as [Hs Hro].
  unfold poll_tick. rewrite Hs, Hro. simpl.
  destruct res; simpl; unfold poll_start; simpl; rewrite Hp, Hs, Hro; simpl.
  - do 2 eexists. split; [reflexivity|]. simpl.
    by rewrite app_nil_r.
  - do 2 eexists. split; [reflexivity|]. done.
  - unfold poll_pinged. simpl. destruct (handleReconnect s) as [s' out].
    do 2 eexists. split; [reflexivity|]. simpl. by rewrite app_nil_r.
  - unfold poll_answered. simpl. destruct (handleReconnect s) as [s' out].
    do 2 eexists. split; [reflexivity|]. simpl. by rewrite app_nil_r.
Qed.





Lemma handleReconnect_keeps_room s :
  roomId (handleReconnect s).1 = roomId s.
Proof. unfold handleReconnect. by case_bool_decide. Qed.

Lemma step_keeps_room a s s' out :
  step a s = Some (s', out) → is_Some (roomId s) → is_Some (roomId s').
Proof.
  intros Hs Hr.
  destruct a as [r u|r d|res| |]; simpl in Hs.
  - unfold emit_join in Hs. simplify_eq. by eexists.
  - case_bool_decide; [|done].
    destruct d; unfold join_answer in Hs; simplify_eq; try done.
    simpl. unfold startPolling. simpl. by destruct (pollingInterval s).
  - destruct (pollingInterval s); [|done].
    unfold poll_tick in Hs. destruct (_ || _); simplify_eq; [done|].
    pose proof (handleReconnect_keeps_room s) as H.
    destruct res, (handleReconnect s); simplify_eq; simpl in *;
      by rewrite ?H.
  - destruct (retryTimers s); [done|].
    unfold retry_fire, emit_join in Hs. simpl in Hs.
    destruct (_ && _); simplify_eq; [by eexists|done].
  - unfold disconnect in Hs. simplify_eq. simpl. unfold stopPolling.
    by destruct (pollingInterval s).
Qed.

Lemma occur_waits_with_room o rt rt' out :
  occur o rt = Some (rt', out) → waits_with_room rt → waits_with_room rt'.
Proof.
  destruct rt as [s p u]. unfold waits_with_room.
  cbn [socket awaitingPing awaitingUsers]. intros Ho Hinv.
  assert (Hlift : ∀ a, lift a (mkRuntime s p u) = Some (rt', out) →
            (0 < awaitingPing rt' + awaitingUsers rt')%nat →
            is_Some (roomId (socket rt'))).
  { intros a Hl. unfold lift in Hl. cbn [socket] in Hl.
    destruct (step a s) as [[s' out']|] eqn:E; [|done]. simplify_eq.
    cbn [socket awaitingPing awaitingUsers]. intros Hw.
    eapply step_keeps_room; [done|]. by apply Hinv. }
  destruct o as [r v|r d| |ok|d| |]; cbn [occur socket] in Ho;
    [by apply (Hlift (AEmitJoin r v))|by apply (Hlift (AJoinAnswer r d))
    | | | |by apply (Hlift ARetryFire)|by apply (Hlift ADisconnect)].
  - destruct (pollingInterval s); [|done].
    unfold poll_start in Ho. cbn [socket awaitingPing awaitingUsers] in Ho.
    destruct (present (roomId s)) eqn:Hr.
    + intros _. destruct (_ || _); simplify_eq; cbn [socket];
        (destruct (roomId s); [by eexists|done]).
    + rewrite orb_true_r in Ho. by simplify_eq.
  - cbn [awaitingPing] in Ho. destruct p as [|p]; [done|].
    unfold poll_pinged in Ho. cbn [socket awaitingPing awaitingUsers] in Ho.
    pose proof (handleReconnect_keeps_room s) as H.
    destruct ok, (handleReconnect s); simplify_eq; cbn [socket];
      simpl in H; rewrite ?H; intros _; apply Hinv; lia.
  - cbn [awaitingUsers] in Ho. destruct u as [|u]; [done|].
    unfold poll_answered in Ho.
    cbn [socket awaitingPing awaitingUsers] in Ho.
    pose proof (handleReconnect_keeps_room s) as H.
    destruct d, (handleReconnect s); simplify_eq; cbn [socket];
      simpl in H; rewrite ?H; intros _; simpl; apply Hinv; lia.
Qed.

(** Every state the instance reaches satisfies [waits_with_room]. *)
Lemma waiting_poll_has_room os rt out :
  play os boot = Some (rt, out) → waits_with_room rt.
Proof.
  assert (H : ∀ rt0, waits_with_room rt0 →
                     play os rt0 = Some (rt, out) → waits_with_room rt).
  { revert out. induction os as [|o os IH]; intros out rt0 H0 Hp.
    - by simplify_eq/=.
    - cbn [play] in Hp.
      destruct (occur o rt0) as [[rt1 out1]|] eqn:E; [|done].
      destruct (play os rt1) as [[rt2 out2]|] eqn:E2; [|done].
      simplify_eq. eapply IH; [|done]. by eapply occur_waits_with_room. }
  apply H. unfold waits_with_room. simpl. lia.
Qed.





End DisconnectFacts.

(** ** Call orchestration *)

Section RoomFacts.
Import JS Room.

Lemma outbound_calls_step r st i :
  outbound_calls_to r (step st i)
  = (outbound_calls_to r st + if is_connected_event r i then 1 else 0)%nat.
Proof.
  unfold outbound_calls_to.
  destruct i as [u|u|c n|c|c|u]; simpl; try lia.
  - rewrite filter_app, length_app. f_equal.
    case_bool_decide as Hu.
    + by rewrite filter_cons_True.
    + rewrite filter_cons_False; [done|]. simpl. by intros [_ ?].
  - rewrite filter_app, length_app, filter_cons_False; [simpl; lia|].
    simpl. by intros [? _].
  - unfold onStream. destruct (calls st !! c); simpl; lia.
  - unfold onCloseOrError. destruct (calls st !! c); simpl; lia.
  - unfold onCloseOrError. destruct (calls st !! c); simpl; lia.
Qed.

Lemma users_consistent_step st i :
  users_consistent st → users_consistent (step st i).
Proof.
  intros Hc. destruct i as [u|u|c n|c|c|u]; simpl.
  - intros r c Hr. destruct (Hc r c Hr) as (call & Hl & Hrem).
    exists call. split; [|done]. simpl. by apply lookup_app_l_Some.
  - intros r c Hr. destruct (Hc r c Hr) as (call & Hl & Hrem).
    exists call. split; [|done]. simpl. by apply lookup_app_l_Some.
  - unfold onStream. destruct (calls st !! c) as [call|] eqn:Hl; [|done].
    intros r c'. simpl. rewrite lookup_insert.
    case_decide as Hr; [|apply Hc].
    intros [= <-]. by exists call.
  - unfold onCloseOrError. destruct (calls st !! c) as [call|]; [|done].
    intros r c'. simpl. rewrite lookup_delete.
    case_decide; [done|apply Hc].
  - unfold onCloseOrError. destruct (calls st !! c) as [call|]; [|done].
    intros r c'. simpl. rewrite lookup_delete.
    case_decide; [done|apply Hc].
  - intros r c'. simpl. rewrite lookup_delete.
    case_decide; [done|apply Hc].
Qed.

Lemma outbound_calls_run r inputs : ∀ st,
  outbound_calls_to r (run inputs st)
  = (outbound_calls_to r st + connected_events_for r inputs)%nat.
Proof.
  unfold run, connected_events_for.
  induction inputs as [|i inputs IH]; intros st; simpl; [lia|].
  rewrite IH, outbound_calls_step, filter_cons.
  destruct (is_connected_event r i); case_decide; simpl; try done; lia.
Qed.

Lemma users_consistent_run inputs : ∀ st,
  users_consistent st → users_consistent (run inputs st).
Proof.
  unfold run. induction inputs as [|i inputs IH]; intros st Hst; [done|].
  simpl. by apply IH, users_consistent_step.
Qed.

(** C1, as the document words it, fails: the member found in the answer to
    [join-room] is found again by the first poll, which diffs against no
    snapshot; the second [user-connected] places a second call although the
    entry made by the first call is there. *)
Lemma duplicate_discovery_places_second_call :
  (∃ s out st,
      Socket.run
        [Socket.AEmitJoin "r1" "u2";
         Socket.AJoinAnswer "r1"
           (Socket.JoinSuccess "session_1000_k3x9q2m1a" (Some ["u1"; "u2"]));
         Socket.ATick (Socket.PollUsers ["u1"; "u2"])]
        Socket.constructor = Some (s, out)
      ∧ omap of_event (Socket.triggered out)
        = [UserConnected "u1"; UserConnected "u1"]
      ∧ st = run [UserConnected "u1"; CallStream 0 42] initial
      ∧ users st !! "u1" = Some 0%nat
      ∧ calls st = [mkCall "u1" true]
      ∧ calls (handleUserConnected "u1" st)
        = [mkCall "u1" true; mkCall "u1" true])
  ∧ ¬ ignores_known_remote.
Proof.
  split.
  - do 3 eexists. split; [by vm_compute|]. split; [done|].
    split; [reflexivity|]. by vm_compute.
  - intros H.
    specialize (H (run [UserConnected "u1"; CallStream 0 42] initial) "u1").
    assert (Hc : calls (handleUserConnected "u1"
                          (run [UserConnected "u1"; CallStream 0 42] initial))
                 = calls (run [UserConnected "u1"; CallStream 0 42] initial)).
    { rewrite H; [done|]. exists 0%nat. by vm_compute. }
    vm_compute in Hc. discriminate Hc.
Qed.

(** C1 (amended): the [users] and [players] tables are keyed by remote id,
    and an entry of [users] always refers to a call with the participant it
    is filed under.  A [user-connected] event is never ignored: each one
    places an outbound call to the id it carries and leaves both tables as
    they are, whether or not the id has an entry, so that the outbound
    calls placed to a remote id are as many as the [user-connected] events
    delivered for it. *)
Theorem every_discovery_places_a_call (inputs : list Input) (r : string) :
  (∀ st, calls (handleUserConnected r st) = calls st ++ [mkCall r true]
         ∧ users (handleUserConnected r st) = users st
         ∧ players (handleUserConnected r st) = players st)
  ∧ (∀ st, outbound_calls_to r (run inputs st)
           = (outbound_calls_to r st + connected_events_for r inputs)%nat)
  ∧ outbound_calls_to r (run inputs initial) = connected_events_for r inputs
  ∧ users_consistent (run inputs initial).
Proof.
  split; [done|]. split; [apply outbound_calls_run|].
  split; [by rewrite outbound_calls_run|].
  apply users_consistent_run. intros ? ?. simpl. by rewrite lookup_empty.
Qed.

End RoomFacts.

(** ** Election of the channel initiator *)

Section ElectionFacts.
Import JS Chat.

(** [string_gt] is the strict order of [String.compare]. *)
Lemma string_gt_compare a b :
  string_gt a b = true ↔ (a ?= b)%string = Gt.
Proof.
  revert b. induction a as [|x a IH]; intros [|y b]; simpl; try done.
  unfold Ascii.compare.
  destruct (N.compare_spec (N_of_ascii x) (N_of_ascii y)) as [He|Hl|Hg].
  - rewrite He, N.ltb_irrefl. apply IH.
  - assert ((N_of_ascii y <? N_of_ascii x)%N = false) as ->
      by (apply N.ltb_ge; lia).
    assert ((N_of_ascii x <? N_of_ascii y)%N = true) as ->
      by (by apply N.ltb_lt).
    done.
  - assert ((N_of_ascii y <? N_of_ascii x)%N = true) as ->
      by (by apply N.ltb_lt).
    done.
Qed.

(** C5: for two distinct ids exactly one side computes [shouldInitiate] as
    true, namely the side whose own id is the greater one in the
    lexicographic order of the code units, and both sides name the same
    participant as the one that creates the channel. *)
Theorem initiator_election_consistent (a b : string) :
  a ≠ b →
  shouldInitiate a b = negb (shouldInitiate b a)
  ∧ (shouldInitiate a b = true ↔ (a ?= b)%string = Gt)
  ∧ (shouldInitiate b a = true ↔ (a ?= b)%string = Lt)
  ∧ initiator a b = initiator b a.
Proof.
  intros Hne. unfold initiator, shouldInitiate.
  pose proof (string_gt_compare a b) as Hab.
  pose proof (string_gt_compare b a) as Hba.
  rewrite (String.compare_antisym b a) in Hba.
  pose proof (String.compare_eq_iff a b) as Heq.
  destruct (a ?= b)%string eqn:E; simpl in *;
    [by destruct Hne, Heq|..];
    destruct (string_gt a b), (string_gt b a); simpl;
    intuition congruence.
Qed.

(** The ids of the document: both sides name ["bob"]. *)
Lemma initiator_election_consistent_witness :
  shouldInitiate "alice" "bob" = negb (shouldInitiate "bob" "alice")
  ∧ (shouldInitiate "alice" "bob" = true ↔ ("alice" ?= "bob")%string = Gt)
  ∧ (shouldInitiate "bob" "alice" = true ↔ ("alice" ?= "bob")%string = Lt)
  ∧ initiator "alice" "bob" = initiator "bob" "alice".
Proof.
  apply (initiator_election_consistent "alice" "bob"). discriminate.
Defined.

Example initiator_alice_bob :
  shouldInitiate "alice" "bob" = false
  ∧ shouldInitiate "bob" "alice" = true
  ∧ initiator "alice" "bob" = "bob"
  ∧ initiator "bob" "alice" = "bob"
  ∧ setup_effect true "bob" [("alice", true)] [] = [("alice", true)]
  ∧ setup_effect true "alice" [("bob", true)] [] = [("bob", false)].
Proof. by vm_compute. Qed.

End ElectionFacts.

(** ** Chat log *)

Section ChatFacts.
Import JS Chat.

Lemma trim_end_empty s : trim_end s = "" ↔ whitespace_only s = true.
Proof.
  induction s as [|c s IH]; simpl; [done|].
  destruct (trim_end s) eqn:E.
  - destruct (is_space c); simpl; [|done].
    split; intros _; [by apply IH|done].
  - destruct (is_space c); simpl; [|done].
    split; [done|]. intros H. by apply IH in H.
Qed.

Lemma trim_start_whitespace s :
  whitespace_only (trim_start s) = whitespace_only s.
Proof.
  induction s as [|c s IH]; simpl; [done|].
  destruct (is_space c) eqn:E; simpl; [done|by rewrite E].
Qed.

Lemma trim_truthy s : truthy (trim s) = negb (whitespace_only s).
Proof.
  unfold truthy, trim. rewrite <- trim_start_whitespace.
  pose proof (trim_end_empty (trim_start s)) as H.
  case_bool_decide as E; destruct (whitespace_only (trim_start s));
    simpl; intuition congruence.
Qed.

Lemma fresh_id_truthy (myId rest : string) :
  present (Some (myId +:+ "-" +:+ rest)) = true.
Proof. by destruct myId. Qed.

Lemma Exists_id i (l : list ChatMessage) :
  Exists (λ msg, msg_id msg = i) l ↔ i ∈ msg_id <$> l.
Proof.
  rewrite Exists_exists, list_elem_of_fmap. naive_solver.
Qed.

(** [addMessage] for an object that carries a usable id. *)
Lemma addMessage_with_id myId env data i prev :
  d_id data = Some i → truthy i = true →
  ∃ m, msg_id m = i
       ∧ msg_text m = d_text data
       ∧ msg_senderId m = d_senderId data
       ∧ isOwn m = bool_decide (d_senderId data = Some myId)
       ∧ addMessage myId env data prev
         = if bool_decide (i ∈ msg_id <$> prev) then prev else prev ++ [m].
Proof.
  intros Hi Ht.
  exists (mkMessage i (d_text data) (d_senderId data)
            (or_else (d_senderName data) (d_senderId data))
            (default "" (or_else (d_timestamp data) (Some (iso env))))
            (bool_decide (d_senderId data = Some myId))).
  repeat split. unfold addMessage.
  assert (or_else (d_id data) (Some (now env +:+ "-" +:+ random env))
          = Some i) as ->.
  { unfold or_else. rewrite Hi. simpl. by rewrite Ht. }
  simpl. by rewrite (bool_decide_ext _ _ (Exists_id i prev)).
Qed.

Lemma entries_with_absent i (l : list ChatMessage) :
  i ∉ msg_id <$> l → entries_with i l = 0%nat.
Proof.
  unfold entries_with. induction l as [|m l IH]; [done|].
  rewrite fmap_cons, not_elem_of_cons. intros [Hm Hl].
  rewrite filter_cons_False by congruence. by apply IH.
Qed.

Lemma entries_with_NoDup i (l : list ChatMessage) :
  NoDup (msg_id <$> l) → i ∈ msg_id <$> l → entries_with i l = 1%nat.
Proof.
  unfold entries_with. induction l as [|m l IH]; [by rewrite elem_of_nil|].
  rewrite fmap_cons, NoDup_cons, elem_of_cons. intros [Hm Hnd] [->|Hin].
  - rewrite filter_cons_True by done. simpl.
    pose proof (entries_with_absent (msg_id m) l Hm) as H0.
    unfold entries_with in H0. by rewrite H0.
  - rewrite filter_cons_False; [by apply IH|]. by intros <-.
Qed.

Lemma entries_with_app i (l1 l2 : list ChatMessage) :
  entries_with i (l1 ++ l2) = (entries_with i l1 + entries_with i l2)%nat.
Proof. unfold entries_with. by rewrite filter_app, length_app. Qed.

Lemma addMessage_NoDup myId env data prev :
  NoDup (msg_id <$> prev) → NoDup (msg_id <$> addMessage myId env data prev).
Proof.
  intros Hnd. unfold addMessage. case_bool_decide as He; [done|].
  rewrite fmap_app. apply NoDup_app. repeat split; [done| |apply NoDup_singleton].
  intros i Hi Hi'. apply list_elem_of_singleton in Hi'. subst i.
  by apply He, Exists_id.
Qed.

Lemma log_after_NoDup myId ops : NoDup (msg_id <$> log_after myId ops).
Proof.
  unfold log_after.
  assert (H : ∀ l, NoDup (msg_id <$> l) →
                   NoDup (msg_id <$> foldl (apply_op myId) l ops)).
  { induction ops as [|o ops IH]; intros l Hl; [done|]. simpl. apply IH.
    destruct o as [env t chans|env p|]; simpl.
    - unfold sendMessage, sendMessage_by. destruct (_ || _); [done|].
      by apply addMessage_NoDup.
    - unfold handleIncomingMessage. destruct p as [data|]; [|done].
      case_bool_decide; [|done]. destruct (_ && _); [|done].
      by apply addMessage_NoDup.
    - apply NoDup_nil_2. }
  apply H, NoDup_nil_2.
Qed.

(** C9: a well-formed chat payload delivered twice, to a log produced by
    any history of sends, receptions and clears, leaves the log as the first
    delivery left it, with exactly one entry under the message id. *)
Theorem receive_twice_keeps_one_entry myId ops env1 env2 data :
  well_formed data →
  let log1 := handleIncomingMessage myId env1 (Some data)
                (log_after myId ops) in
  let log2 := handleIncomingMessage myId env2 (Some data) log1 in
  log2 = log1 ∧ entries_with (default "" (d_id data)) log2 = 1%nat.
Proof.
  intros (Hty & Hs & Ht & Hi). simpl.
  pose proof (log_after_NoDup myId ops) as Hnd.
  set (log0 := log_after myId ops) in *.
  unfold handleIncomingMessage. rewrite Hty, Hs, Ht, Hi. simpl.
  destruct (d_id data) as [i|] eqn:Hid; [|done]. simpl in Hi.
  destruct (addMessage_with_id myId env1 data i log0 Hid Hi)
    as (m1 & Hm1 & _ & _ & _ & ->).
  case_bool_decide as Hin.
  - destruct (addMessage_with_id myId env2 data i log0 Hid Hi)
      as (m2 & _ & _ & _ & _ & ->).
    rewrite bool_decide_eq_true_2 by done.
    split; [done|]. by apply entries_with_NoDup.
  - destruct (addMessage_with_id myId env2 data i (log0 ++ [m1]) Hid Hi)
      as (m2 & _ & _ & _ & _ & ->).
    rewrite bool_decide_eq_true_2.
    + split; [done|]. rewrite entries_with_app, entries_with_absent by done.
      unfold entries_with. by rewrite filter_cons_True.
    + rewrite fmap_app, elem_of_app. right. simpl.
      rewrite Hm1. by apply list_elem_of_singleton.
Qed.

Lemma receive_twice_keeps_one_entry_witness :
  let env := mkEnv "1730000000123" "0.4821" "2024-10-27T03:33:20.123Z" in
  let data := mkData (Some "chat-message") (Some "u2-1730000000000-0.77")
                (Some "hello") (Some "u2") (Some "u2")
                (Some "2024-10-27T03:33:20.000Z") in
  let ops := [OpSend env (Some "hi") []] in
  let log1 := handleIncomingMessage "u1" env (Some data)
                (log_after "u1" ops) in
  let log2 := handleIncomingMessage "u1" env (Some data) log1 in
  log2 = log1 ∧ entries_with "u2-1730000000000-0.77" log2 = 1%nat.
Proof.
  intros env data ops.
  apply (receive_twice_keeps_one_entry "u1" ops env env data).
  by vm_compute.
Defined.

Lemma nonempty_filter_exists {A} (P : A → Prop) `{∀ x, Decision (P x)}
    (l : list A) :
  (0 < length (filter P l))%nat ↔ ∃ x, x ∈ l ∧ P x.
Proof.
  split.
  - destruct (filter P l) as [|x l'] eqn:E; simpl; [lia|]. intros _.
    exists x. apply and_comm, (list_elem_of_filter P). rewrite E. by left.
  - intros (x & Hx & HP).
    assert (Hin : x ∈ filter P l) by (by apply list_elem_of_filter).
    destruct (filter P l); [by apply elem_of_nil in Hin|simpl; lia].
Qed.

(** The peers [sendMessage] writes to, read off the channel table: the
    entries that hold a channel whose [readyState] is [open]. *)
Lemma written_peers {D} (message : D)
    (dataChannels : list (string * option Channel)) :
  fst <$> ((λ e, (e.1, message)) <$>
             filter (λ e, is_open e = true) dataChannels)
  = omap (λ e, match e.2 with
               | Some ch => match readyState ch with
                            | rs_open => Some e.1
                            | _ => None
                            end
               | None => None
               end) dataChannels.
Proof.
  induction dataChannels as [|[peer [[[] a]|]] l IH]; [done|..];
    rewrite ?filter_cons_True by done;
    rewrite ?filter_cons_False by done; csimpl; by rewrite ?IH.
Qed.

Lemma some_channel_took_the_write
    (dataChannels : list (string * option Channel)) :
  (0 < length (filter (λ e, accepted e = true)
                 (filter (λ e, is_open e = true) dataChannels)))%nat
  ↔ ∃ peer ch, (peer, Some ch) ∈ dataChannels
               ∧ readyState ch = rs_open ∧ accepts ch = true.
Proof.
  rewrite nonempty_filter_exists. split.
  - intros ([peer [[st a]|]] & (Ho & He)%list_elem_of_filter & Ha);
      [|done].
    exists peer, (mkChannel st a). split; [done|].
    unfold is_open in Ho. simpl in *. by destruct st.
  - intros (peer & [st a] & He & Ho & Ha). simpl in *. subst st a.
    exists (peer, Some (mkChannel rs_open true)).
    split; [by apply list_elem_of_filter|done].
Qed.

(** C8: [sendMessage] returns false, leaves the log as it is and writes to
    no channel when the text is missing, empty, or trimmed to the empty
    text by [String.prototype.trim], whatever that function is.  For any
    other text, the id it builds being new to the log, it appends one
    message to the log, marked as the sender's own and carrying the trimmed
    text; it calls [send] with that message, in the order of the table, on
    the channels whose [readyState] is [open] and on no other; and it
    returns true exactly when the table holds a channel whose [readyState]
    is [open] and whose [send] returned instead of throwing.  With no
    channel in state [open] nothing is written, the result is false and
    the message is in the log all the same. *)
Theorem sendMessage_echo_and_fanout
    jsTrim myId env messageText dataChannels prev :
  let r := sendMessage_by jsTrim myId env messageText dataChannels prev in
  let rejected :=
    match messageText with
    | Some t => t = "" ∨ jsTrim t = ""
    | None => True
    end in
  let i := myId +:+ "-" +:+ now env +:+ "-" +:+ random env in
  (rejected → r = mkSent false prev [])
  ∧ (¬ rejected → ¬ (i ∈ msg_id <$> prev) →
     ∃ m, log r = prev ++ [m]
          ∧ msg_id m = i ∧ isOwn m = true
          ∧ msg_text m = Some (jsTrim (default "" messageText))
          ∧ msg_senderId m = Some myId
          ∧ fst <$> written r
            = omap (λ e, match e.2 with
                         | Some ch => match readyState ch with
                                      | rs_open => Some e.1
                                      | _ => None
                                      end
                         | None => None
                         end) dataChannels
          ∧ (∀ w, w ∈ written r →
                  w.2 = mkData (Some "chat-message") (Some i) (msg_text m)
                          (Some myId) (Some myId) (Some (iso env)))
          ∧ (result r = true ↔
             ∃ peer ch, (peer, Some ch) ∈ dataChannels
                        ∧ readyState ch = rs_open ∧ accepts ch = true)
          ∧ ((∀ peer ch, (peer, Some ch) ∈ dataChannels →
                         readyState ch ≠ rs_open) →
             written r = [] ∧ result r = false)).
Proof.
  intros r rejected i. subst r rejected. unfold sendMessage_by. split.
  - destruct messageText as [t|]; [|done]. simpl. unfold truthy.
    intros [->| ->]; [done|]. by rewrite orb_true_r.
  - destruct messageText as [t|]; [|by intros []]. intros Hb Hfresh. simpl.
    assert (truthy t = true) as ->.
    { unfold truthy. rewrite bool_decide_eq_false_2; [done|].
      intros ->. apply Hb. by left. }
    assert (truthy (jsTrim t) = true) as ->.
    { unfold truthy. rewrite bool_decide_eq_false_2; [done|].
      intros E. apply Hb. by right. }
    simpl. set (message := mkData _ _ _ _ _ _).
    destruct (addMessage_with_id myId env message i prev eq_refl
                (fresh_id_truthy myId _)) as (m & Hm & Htx & Hs & Ho & ->).
    rewrite bool_decide_eq_false_2 by done.
    exists m. split; [done|]. split; [done|].
    split; [by rewrite Ho, bool_decide_eq_true_2|].
    split; [done|]. split; [done|]. split; [|split; [|split]].
    + apply written_peers.
    + intros w (e & -> & _)%list_elem_of_fmap. by rewrite Htx.
    + rewrite bool_decide_eq_true. apply some_channel_took_the_write.
    + intros Hnone.
      assert (filter (λ e, is_open e = true) dataChannels = []) as ->; [|done].
      destruct (filter _ dataChannels) as [|e l] eqn:E; [done|].
      assert (Hin : e ∈ filter (λ e, is_open e = true) dataChannels)
        by (rewrite E; by left).
      apply list_elem_of_filter in Hin as [Ho' He].
      destruct e as [peer [[st a]|]]; [|done].
      destruct (Hnone _ _ He). unfold is_open in Ho'. simpl in *.
      by destruct st.
Qed.

(** Three sends of participant [u1]: a blank text; the scenario of the
    document, a send with no channel; and a send to a table that holds a
    channel that is closing, an open channel whose [send] throws and an
    entry without channel, then to the same table with one more open
    channel, which takes the write. *)
Lemma sendMessage_echo_and_fanout_witness :
  let env := mkEnv "1730000000123" "0.4821" "2024-10-27T03:33:20.123Z" in
  let table := [("u2", Some (mkChannel rs_closing true));
                ("u3", Some (mkChannel rs_open false));
                ("u4", None)] in
  let refused := sendMessage "u1" env (Some " hi ") table [] in
  let taken := sendMessage "u1" env (Some " hi ")
                 (table ++ [("u5", Some (mkChannel rs_open true))]) [] in
  (sendMessage "u1" env (Some "   ") table [] = mkSent false [] [])
  ∧ (∃ m, log (sendMessage "u1" env (Some "hi") [] []) = [] ++ [m]
          ∧ isOwn m = true
          ∧ written (sendMessage "u1" env (Some "hi") [] []) = []
          ∧ result (sendMessage "u1" env (Some "hi") [] []) = false)
  ∧ (∃ m, log refused = [] ++ [m]
          ∧ msg_text m = Some "hi"
          ∧ fst <$> written refused = ["u3"]
          ∧ result refused = false)
  ∧ (fst <$> written taken = ["u3"; "u5"] ∧ result taken = true).
Proof.
  intros env table refused taken.
  pose proof (sendMessage_echo_and_fanout trim "u1" env (Some "   ") table [])
    as [H1 _].
  pose proof (sendMessage_echo_and_fanout trim "u1" env (Some "hi") [] [])
    as [_ H2].
  pose proof (sendMessage_echo_and_fanout trim "u1" env (Some " hi ") table
                []) as [_ H3].
  pose proof (sendMessage_echo_and_fanout trim "u1" env (Some " hi ")
                (table ++ [("u5", Some (mkChannel rs_open true))]) [])
    as [_ H4].
  assert (Hhi : ¬ ("hi" = "" ∨ trim "hi" = "")) by (intros [|]; discriminate).
  assert (Hhi' : ¬ (" hi " = "" ∨ trim " hi " = ""))
    by (intros [|]; discriminate).
  split; [apply H1; by right|]. split; [|split].
  - destruct (H2 Hhi (not_elem_of_nil _))
      as (m & Hl & _ & Ho & _ & _ & _ & _ & _ & Hz).
    exists m. split; [exact Hl|]. split; [exact Ho|].
    apply Hz. intros peer ch Hin. by apply elem_of_nil in Hin.
  - destruct (H3 Hhi' (not_elem_of_nil _))
      as (m & Hl & _ & _ & Ht & _ & Hw & _ & Hr & _).
    exists m. split; [exact Hl|]. split; [exact Ht|]. split; [exact Hw|].
    apply not_true_is_false. intros Hres.
    apply Hr in Hres as (peer & ch & Hin & Hopen & Hacc).
    subst table.
    repeat (apply elem_of_cons in Hin as [Hin|Hin]; [by simplify_eq/=|]).
    by apply elem_of_nil in Hin.
  - destruct (H4 Hhi' (not_elem_of_nil _))
      as (m & _ & _ & _ & _ & _ & Hw & _ & Hr & _).
    split; [exact Hw|].
    apply Hr. exists "u5", (mkChannel rs_open true).
    split; [|split; reflexivity].
    subst table. rewrite elem_of_app. right. by apply list_elem_of_singleton.
Defined.

End ChatFacts.

(** * Further properties *)

(** ** The sweep *)

(** Closes a decidable goal by evaluating its decision procedure. *)
Ltac by_computation :=
  match goal with |- ?P => apply (bool_decide_unpack P) end;
  vm_compute; exact I.

Section SweepFacts.
Import JS Route Presence.

Lemma map_delete_filter {V} (m : list (string * V)) k :
  NoDup (fst <$> m) → map_delete k m = filter (λ e, e.1 ≠ k) m.
Proof.
  induction m as [|[k' v'] m IH]; simpl; [done|].
  rewrite NoDup_cons. intros [Hk Hnd]. case_bool_decide as Hd.
  - subst k'. rewrite filter_cons_False by (simpl; by intros ?).
    symmetry. clear IH Hnd. induction m as [|[k1 v1] m IH]; [done|].
    rewrite fmap_cons, not_elem_of_cons in Hk. destruct Hk as [Hne Hk].
    rewrite filter_cons_True by (simpl; by intros ->). by rewrite IH.
  - rewrite filter_cons_True by done. by rewrite IH.
Qed.

Lemma filter_keys_NoDup {V} (P : string * V → Prop) `{∀ e, Decision (P e)}
    (m : list (string * V)) :
  NoDup (fst <$> m) → NoDup (fst <$> filter P m).
Proof.
  induction m as [|e m IH]; [done|].
  rewrite fmap_cons, NoDup_cons, filter_cons. intros [He Hnd].
  case_decide; [|by apply IH].
  rewrite fmap_cons. apply NoDup_cons. split; [|by apply IH].
  intros (e' & Heq & [_ Hin]%list_elem_of_filter)%list_elem_of_fmap.
  apply He, list_elem_of_fmap. by exists e'.
Qed.

Lemma filter_ext_elem {A} (P Q : A → Prop) `{∀ x, Decision (P x)}
    `{∀ x, Decision (Q x)} (l : list A) :
  (∀ x, x ∈ l → (P x ↔ Q x)) → filter P l = filter Q l.
Proof.
  induction l as [|x l IH]; [done|]. intros Hext.
  rewrite !filter_cons.
  assert (HPQ : P x ↔ Q x) by (apply Hext; by left).
  rewrite IH by (intros y Hy; apply Hext; by right).
  repeat case_decide; tauto.
Qed.

Lemma filter_all {A} (P : A → Prop) `{∀ x, Decision (P x)} (l : list A) :
  (∀ x, x ∈ l → P x) → filter P l = l.
Proof.
  induction l as [|x l IH]; [done|]. intros Hall.
  rewrite filter_cons_True by (apply Hall; by left).
  rewrite IH; [done|]. intros y Hy. apply Hall. by right.
Qed.

Lemma cleanup_entry_sessions t st e :
  unique_sessions st →
  userSessions (cleanup_entry t st e)
  = filter (λ e', ¬ (e'.1 ∈ expired_keys t [e])) (userSessions st).
Proof.
  intros Hu. destruct e as [sid s]. unfold cleanup_entry, expired_keys.
  rewrite filter_cons, filter_nil.
  destruct (decide (expired t (sid, s))) as [He|He]; unfold expired in He;
    simpl in *.
  - rewrite bool_decide_eq_true_2 by done. simpl.
    rewrite map_delete_filter by done.
    apply filter_ext_elem. intros e' _.
    rewrite list_elem_of_singleton. tauto.
  - rewrite bool_decide_eq_false_2 by done. symmetry. apply filter_all.
    intros e' _. apply not_elem_of_nil.
Qed.

Lemma expired_keys_cons t e l :
  ∀ k, k ∈ expired_keys t (e :: l)
       ↔ k ∈ expired_keys t [e] ∨ k ∈ expired_keys t l.
Proof.
  intros k. unfold expired_keys. rewrite !filter_cons, filter_nil.
  case_decide; simpl; rewrite ?elem_of_cons, ?elem_of_nil; tauto.
Qed.

Lemma sweep_fold_sessions t (l : list (string * Session)) : ∀ st,
  unique_sessions st →
  unique_sessions (foldl (cleanup_entry t) st l)
  ∧ userSessions (foldl (cleanup_entry t) st l)
    = filter (λ e', ¬ (e'.1 ∈ expired_keys t l)) (userSessions st).
Proof.
  induction l as [|e l IH]; intros st Hu.
  - simpl. split; [done|]. symmetry. apply filter_all.
    intros e' _. apply not_elem_of_nil.
  - simpl.
    assert (Hu1 : unique_sessions (cleanup_entry t st e)).
    { unfold unique_sessions. rewrite cleanup_entry_sessions by done.
      by apply filter_keys_NoDup. }
    destruct (IH _ Hu1) as [Hu2 Heq]. split; [done|].
    rewrite Heq, cleanup_entry_sessions, list_filter_filter by done.
    apply filter_ext_elem. intros e' _. rewrite (expired_keys_cons t e l). tauto.
Qed.

(** The sweep keeps the unexpired sessions, in order, and nothing else. *)
Lemma sweep_sessions t st :
  unique_sessions st →
  userSessions (cleanupOldSessions t st)
  = filter (λ e, ¬ expired t e) (userSessions st).
Proof.
  intros Hu. unfold cleanupOldSessions.
  destruct (sweep_fold_sessions t (userSessions st) st Hu) as [_ ->].
  apply filter_ext_elem. intros [k v] Hin. unfold expired_keys. simpl.
  rewrite list_elem_of_fmap. split.
  - intros Hn He. apply Hn. exists (k, v). split; [done|].
    by apply list_elem_of_filter.
  - intros Hn ([k' v'] & Hk & [He Hin']%list_elem_of_filter).
    simpl in Hk. subst k'.
    by rewrite (assoc_functional _ _ _ _ Hu Hin Hin') in Hn.
Qed.

Lemma sweep_nothing_expired t (l : list (string * Session)) : ∀ st,
  (∀ e, e ∈ l → ¬ expired t e) → foldl (cleanup_entry t) st l = st.
Proof.
  induction l as [|[sid s] l IH]; intros st Hall; [done|]. cbn [foldl].
  assert (He : ¬ expired t (sid, s)) by (apply Hall; by left).
  assert (Hstep : cleanup_entry t st (sid, s) = st).
  { unfold cleanup_entry. unfold expired in He. simpl in He.
    by rewrite bool_decide_eq_false_2. }
  rewrite Hstep. apply IH. intros e Hin. apply Hall. by right.
Qed.

(** X1: on a session table that holds every session id once, the sweep at
    time [t] keeps exactly the sessions whose age does not exceed five
    minutes, in their order, and a second sweep at the same time changes
    neither the sessions nor the rooms. *)
Theorem sweep_keeps_unexpired_and_is_idempotent t st :
  unique_sessions st →
  userSessions (cleanupOldSessions t st)
  = filter (λ e, ¬ expired t e) (userSessions st)
  ∧ cleanupOldSessions t (cleanupOldSessions t st) = cleanupOldSessions t st.
Proof.
  intros Hu. split; [by apply sweep_sessions|].
  unfold cleanupOldSessions at 1. apply sweep_nothing_expired.
  intros e. rewrite sweep_sessions by done.
  by intros [He _]%list_elem_of_filter.
Qed.

Lemma sweep_keeps_unexpired_and_is_idempotent_witness :
  let st := after [OJoin (mkClock 1000 "k3x9q2m1a") "r1" "u1";
                   OJoin (mkClock 200000 "p0o9i8u7y") "r1" "u2"] in
  userSessions (cleanupOldSessions 301500 st)
  = filter (λ e, ¬ expired 301500 e) (userSessions st)
  ∧ cleanupOldSessions 301500 (cleanupOldSessions 301500 st)
    = cleanupOldSessions 301500 st.
Proof.
  intros st. apply (sweep_keeps_unexpired_and_is_idempotent 301500 st).
  unfold unique_sessions. by_computation.
Defined.

End SweepFacts.

(** ** Histories of the store *)

Section HistoryFacts.
Import JS Route Presence.

Lemma map_set_keys_NoDup {V} (m : list (string * V)) k v :
  NoDup (fst <$> m) → NoDup (fst <$> map_set k v m).
Proof.
  intros Hnd. destruct (decide (k ∈ fst <$> m)) as [Hin|Hout].
  - by rewrite map_set_keys.
  - rewrite map_set_fresh, fmap_app by done.
    apply NoDup_app. repeat split; [done| |apply NoDup_singleton].
    intros k' Hk' Heq. apply list_elem_of_singleton in Heq. by subst.
Qed.

Lemma map_get_set {V} (m : list (string * V)) k v :
  map_get k (map_set k v m) = Some v.
Proof.
  induction m as [|[k' v'] m IH]; simpl.
  - by rewrite bool_decide_eq_true_2.
  - case_bool_decide as Hd; simpl.
    + by rewrite bool_decide_eq_true_2.
    + by rewrite bool_decide_eq_false_2.
Qed.

Lemma map_get_Some {V} (m : list (string * V)) k v :
  NoDup (fst <$> m) → (k, v) ∈ m → map_get k m = Some v.
Proof.
  induction m as [|[k' v'] m IH]; simpl; [by intros _ ?%elem_of_nil|].
  rewrite NoDup_cons, elem_of_cons. intros [Hk Hnd] [Heq|Hin].
  - injection Heq as -> ->. by rewrite bool_decide_eq_true_2.
  - rewrite bool_decide_eq_false_2; [by apply IH|].
    intros ->. apply Hk, list_elem_of_fmap. by exists (k, v).
Qed.

(** What every request does to the two maps. *)
Lemma GET_cases c q st :
  (GET c q st).1 = st
  ∨ (∃ rid uid, truthy rid = true ∧ truthy uid = true
        ∧ GET c q st = join_room (now c) (fresh_session_id c) rid uid st)
  ∨ (∃ rid uid, GET c q st = leave_room rid uid st)
  ∨ (∃ sid, GET c q st = ping (now c) sid st).
Proof.
  unfold GET.
  destruct (is_action (q_action q) "join-room").
  { destruct (present (q_roomId q)) eqn:Er, (present (q_userId q)) eqn:Eu;
      simpl; try (by left).
    right. left. exists (default "" (q_roomId q)), (default "" (q_userId q)).
    destruct (q_roomId q), (q_userId q); try done. }
  destruct (is_action (q_action q) "get-room-users").
  { destruct (present (q_roomId q)); by left. }
  destruct (is_action (q_action q) "leave-room").
  { destruct (present (q_roomId q) && present (q_userId q)); [|by left].
    right. right. left. by eexists _, _. }
  destruct (is_action (q_action q) "ping"); [|by left].
  right. right. right. by eexists.
Qed.

Lemma unique_ping t sid st :
  unique_sessions st → unique_sessions (ping t sid st).1.
Proof.
  intros Hu. unfold ping. destruct (present sid); [|done].
  destruct (map_get _ _); [|done]. by apply map_set_keys_NoDup.
Qed.

Lemma unique_apply st o : unique_sessions st → unique_sessions (apply st o).
Proof.
  intros Hu. destruct o as [c rid uid|c rid uid|c sid|t]; simpl.
  1-3: match goal with |- unique_sessions (GET ?c ?q ?st).1 =>
         destruct (GET_cases c q st)
           as [->|[(r & u & _ & _ & ->)|[(r & u & ->)|(k & ->)]]]
       end; try done.
  1,4,7: by apply map_set_keys_NoDup.
  1,3,5: unfold leave_room; simpl;
       destruct (first_session_of _ _ _); [by apply map_delete_keys|done].
  1-3: by apply unique_ping.
  by apply sweep_fold_sessions.
Qed.

Lemma after_snoc ops o : after (ops ++ [o]) = apply (after ops) o.
Proof. unfold after. by rewrite foldl_app. Qed.

Lemma after_unique ops : unique_sessions (after ops).
Proof.
  induction ops as [|o ops IH] using rev_ind; [apply NoDup_nil_2|].
  rewrite after_snoc. by apply unique_apply.
Qed.

Lemma tidy_remove_member rid uid rs :
  rooms_tidy rs → rooms_tidy (remove_member rid uid rs).
Proof.
  intros Ht. unfold remove_member.
  destruct (rs !! rid) as [us|] eqn:Hr; [|done].
  case_bool_decide as Hl; intros r us'.
  - rewrite lookup_delete. case_decide; [done|apply Ht].
  - rewrite lookup_insert. case_decide; [|apply Ht].
    intros [= <-]. split.
    + intros Hnil. by rewrite Hnil in Hl.
    + rewrite ids_filter. apply NoDup_filter. by apply (Ht rid us).
Qed.

Lemma tidy_join t sid rid uid st :
  rooms_tidy (rooms st) → rooms_tidy (rooms (join_room t sid rid uid st).1).
Proof.
  intros Ht. unfold join_room. simpl. intros r us'.
  rewrite lookup_insert. case_decide; [|apply Ht]. intros [= <-].
  assert (Hold : NoDup (m_id <$> default [] (rooms st !! rid))).
  { destruct (rooms st !! rid) as [us|] eqn:Hr; [by apply (Ht rid us)|].
    apply NoDup_nil_2. }
  destruct (findIndex uid _) as [i|] eqn:Hf.
  - destruct (findIndex_Some _ _ _ Hf) as (m & Hi & Hm). split.
    + intros Hnil. apply (f_equal length) in Hnil.
      rewrite length_insert in Hnil. apply lookup_lt_Some in Hi.
      simpl in Hnil. lia.
    + by rewrite (ids_insert_same _ i m).
  - split; [by destruct (default [] _)|].
    rewrite fmap_app. apply NoDup_app. repeat split; [done| |].
    + intros u Hu Heq. apply list_elem_of_singleton in Heq. subst u.
      by apply (findIndex_None _ _ Hf).
    + apply NoDup_singleton.
Qed.

Lemma tidy_cleanup t (l : list (string * Session)) : ∀ st,
  rooms_tidy (rooms st) → rooms_tidy (rooms (foldl (cleanup_entry t) st l)).
Proof.
  induction l as [|[sid s] l IH]; intros st Ht; [done|]. cbn [foldl].
  apply IH. unfold cleanup_entry. case_bool_decide; [|done]. simpl.
  destruct (truthy (s_roomId s)); [by apply tidy_remove_member|done].
Qed.

Lemma tidy_apply st o : rooms_tidy (rooms st) → rooms_tidy (rooms (apply st o)).
Proof.
  intros Ht. destruct o as [c rid uid|c rid uid|c sid|t]; simpl.
  1-3: match goal with |- rooms_tidy (rooms (GET ?c ?q ?st).1) =>
         destruct (GET_cases c q st)
           as [->|[(r & u & _ & _ & ->)|[(r & u & ->)|(k & ->)]]]
       end; try done.
  1,4,7: by apply tidy_join.
  1,3,5: by apply tidy_remove_member.
  1-3: unfold ping; destruct (present _); [|done];
       by destruct (map_get _ _).
  by apply tidy_cleanup.
Qed.

(** X3: after any history of requests and sweeps, rejoins included, a room
    that is in the [rooms] map has at least one member and lists no
    participant twice. *)
Theorem rooms_never_empty_nor_duplicated ops rid us :
  rooms (after ops) !! rid = Some us → us ≠ [] ∧ NoDup (m_id <$> us).
Proof.
  revert rid us. change (rooms_tidy (rooms (after ops))).
  induction ops as [|o ops IH] using rev_ind; [done|].
  rewrite after_snoc. by apply tidy_apply.
Qed.

Lemma rooms_never_empty_nor_duplicated_witness :
  let ops := [OJoin (mkClock 1000 "k3x9q2m1a") "r1" "u1";
              OJoin (mkClock 2000 "p0o9i8u7y") "r1" "u2";
              OJoin (mkClock 3000 "zzzzzzzzz") "r1" "u1";
              OLeave (mkClock 4000 "yyyyyyyyy") "r1" "u2"] in
  ∃ us, rooms (after ops) !! "r1" = Some us
        ∧ us ≠ [] ∧ NoDup (m_id <$> us).
Proof.
  intros ops. eexists. split; [vm_compute; reflexivity|].
  apply (rooms_never_empty_nor_duplicated ops "r1").
  vm_compute; reflexivity.
Defined.

End HistoryFacts.

(** ** Requests in sequence *)

Section EndpointFacts.
Import JS Route Presence.

(** X2: in a store reached by first joins, leaves, pings and sweeps, the
    members a room lists right after a sweep at time [t] are, up to order,
    the participants whose session for the room is not older than five
    minutes at [t]. *)
Theorem sweep_lists_unexpired st t rid :
  reached_by_first_joins st →
  list_members rid (cleanupOldSessions t st) ≡ₚ unexpired_ids t rid st.
Proof.
  intros Hr.
  pose proof (reached_step st (OSweep t) Hr I) as Hr'. simpl in Hr'.
  rewrite (members_match_sessions _ rid Hr').
  unfold session_ids, unexpired_ids.
  rewrite sweep_sessions by (apply reached_consistent in Hr; apply Hr).
  rewrite list_filter_filter. done.
Qed.

Lemma sweep_lists_unexpired_witness :
  let st := apply (apply empty_store
                     (OJoin (mkClock 1000 "k3x9q2m1a") "r1" "u1"))
              (OJoin (mkClock 200000 "p0o9i8u7y") "r1" "u2") in
  list_members "r1" (cleanupOldSessions 301500 st)
  ≡ₚ unexpired_ids 301500 "r1" st.
Proof.
  intros st. apply (sweep_lists_unexpired st 301500 "r1"). subst st.
  apply reached_step;
    [apply reached_step; [apply reached_empty|]|]; simpl;
    (split; by_computation).
Defined.

(** X4: in such a store, a session that [ping] has just refreshed at time
    [now] is still in the table, with [lastSeen = now], after a sweep that
    runs no later than five minutes afterwards, and its participant is
    still listed in its room. *)
Theorem ping_protects_from_sweep st c sid t' :
  reached_by_first_joins st →
  status (GET c (ping_query (Some sid)) st).2 = 200 →
  t' - now c ≤ fiveMinutes →
  let st' := cleanupOldSessions t' (GET c (ping_query (Some sid)) st).1 in
  ∃ s, map_get sid (userSessions st') = Some s
       ∧ lastSeen s = now c
       ∧ s_userId s ∈ list_members (s_roomId s) st'.
Proof.
  intros Hr Hok Ht st'.
  pose proof (reached_step st (OPing c (Some sid)) Hr I) as Hr1.
  pose proof (reached_step _ (OSweep t') Hr1 I) as Hr2. simpl in Hr1, Hr2.
  fold st' in Hr2.
  pose proof (reached_consistent _ Hr1) as Hc1.
  pose proof (reached_consistent _ Hr2) as Hc2.
  change (GET c (ping_query (Some sid)) st) with (ping (now c) (Some sid) st)
    in *.
  unfold ping in Hok, Hc1, st'. simpl in *.
  destruct (truthy sid); [|done].
  destruct (map_get sid (userSessions st)) as [s|] eqn:Hg; [|done].
  simpl in *.
  set (s' := mkSession (s_userId s) (s_roomId s) (now c)) in *.
  assert (Hin : (sid, s') ∈ userSessions st').
  { unfold st'. rewrite sweep_sessions by apply Hc1. simpl.
    apply list_elem_of_filter. split.
    - unfold expired. simpl. lia.
    - apply map_get_elem, map_get_set. }
  exists s'. split; [|split; [done|]].
  - apply map_get_Some; [apply Hc2|done].
  - apply (members_sessions _ Hc2). by exists sid, s'.
Qed.

Lemma ping_protects_from_sweep_witness :
  let st := apply (apply empty_store
                     (OJoin (mkClock 1000 "k3x9q2m1a") "r1" "u1"))
              (OJoin (mkClock 200000 "p0o9i8u7y") "r1" "u2") in
  let c := mkClock 250000 "zzzzzzzzz" in
  let st' := cleanupOldSessions 400000
               (GET c (ping_query (Some "session_1000_k3x9q2m1a")) st).1 in
  ∃ s, map_get "session_1000_k3x9q2m1a" (userSessions st') = Some s
       ∧ lastSeen s = 250000
       ∧ s_userId s ∈ list_members (s_roomId s) st'.
Proof.
  intros st c.
  apply (ping_protects_from_sweep st c "session_1000_k3x9q2m1a" 400000);
    [|vm_compute; reflexivity|vm_compute; discriminate].
  subst st.
  apply reached_step;
    [apply reached_step; [apply reached_empty|]|]; simpl;
    (split; by_computation).
Defined.

(** X5: whatever the store holds, the session id that [join-room] returns
    is accepted by the next [ping], sent by GET or as the transport sends
    it by POST. *)
Theorem joined_session_is_known c c' rid uid st :
  truthy rid = true → truthy uid = true →
  ∃ sid us,
    body (GET c (join_query rid uid) st).2 = BJoined sid us
    ∧ status (GET c' (ping_query (Some sid))
                (GET c (join_query rid uid) st).1).2 = 200
    ∧ status (POST c' (Some (Wire.makeAPICall "ping" None None (Some sid)))
                (GET c (join_query rid uid) st).1).2 = 200.
Proof.
  intros Hr Hu. rewrite (GET_join c rid uid st Hr Hu).
  do 2 eexists. split; [reflexivity|].
  change (POST c' (Some (Wire.makeAPICall "ping" None None ?s)) ?st)
    with (ping (now c') s st).
  rewrite GET_ping, ping_status. simpl.
  by rewrite map_get_set.
Qed.

Lemma joined_session_is_known_witness :
  ∃ sid us,
    body (GET (mkClock 1000 "k3x9q2m1a") (join_query "r1" "u1")
            empty_store).2 = BJoined sid us
    ∧ status (GET (mkClock 3000 "zzzzzzzzz") (ping_query (Some sid))
                (GET (mkClock 1000 "k3x9q2m1a") (join_query "r1" "u1")
                   empty_store).1).2 = 200
    ∧ status (POST (mkClock 3000 "zzzzzzzzz")
                (Some (Wire.makeAPICall "ping" None None (Some sid)))
                (GET (mkClock 1000 "k3x9q2m1a") (join_query "r1" "u1")
                   empty_store).1).2 = 200.
Proof.
  apply (joined_session_is_known (mkClock 1000 "k3x9q2m1a")
           (mkClock 3000 "zzzzzzzzz") "r1" "u1" empty_store); reflexivity.
Defined.

(** X6: [leave-room] with both ids answers success whether or not the room
    or the member exists; afterwards the room lists its former members
    without the leaver, in their order, the other rooms list what they
    listed, and the session table has lost at most one session, one of the
    leaver for that room. *)
Theorem leave_room_removes_the_member c rid uid st :
  truthy rid = true → truthy uid = true →
  let out := GET c (leave_query rid uid) st in
  out.2 = ok BSuccess
  ∧ list_members rid out.1 = filter (λ u, u ≠ uid) (list_members rid st)
  ∧ ¬ (uid ∈ list_members rid out.1)
  ∧ (∀ r, r ≠ rid → list_members r out.1 = list_members r st)
  ∧ (userSessions out.1 = userSessions st
     ∨ ∃ sid s, (sid, s) ∈ userSessions st
                ∧ s_userId s = uid ∧ s_roomId s = rid
                ∧ userSessions out.1 = map_delete sid (userSessions st)).
Proof.
  intros Hr Hu out. subst out.
  assert (Heq : GET c (leave_query rid uid) st = leave_room rid uid st).
  { unfold GET, leave_query, is_action. simpl q_action.
    rewrite !bool_decide_eq_false_2 by done.
    rewrite bool_decide_eq_true_2 by done. simpl. by rewrite Hr, Hu. }
  rewrite Heq. unfold leave_room. simpl.
  assert (Hl : ∀ r ss, list_members r (mkStore (remove_member rid uid (rooms st)) ss)
            = if bool_decide (r = rid)
              then filter (λ u, u ≠ uid) (list_members rid st)
              else list_members r st).
  { intros r ss. rewrite (list_members_remove _ _ _ _ _ (userSessions st)).
    by destruct st. }
  split; [done|]. rewrite !Hl, bool_decide_eq_true_2 by done.
  split; [done|]. split; [|split].
  - intros [Hne _]%list_elem_of_filter. done.
  - intros r Hne. by rewrite Hl, bool_decide_eq_false_2.
  - destruct (first_session_of uid rid (userSessions st)) as [sid|] eqn:E;
      [|by left].
    right. apply first_session_of_Some in E as (s & ? & ? & ?).
    by exists sid, s.
Qed.

Lemma leave_room_removes_the_member_witness :
  let st := after [OJoin (mkClock 1000 "k3x9q2m1a") "r1" "u1";
                   OJoin (mkClock 2000 "p0o9i8u7y") "r1" "u2"] in
  let out := GET (mkClock 3000 "zzzzzzzzz") (leave_query "r1" "u1") st in
  out.2 = ok BSuccess
  ∧ list_members "r1" out.1 = filter (λ u, u ≠ "u1") (list_members "r1" st)
  ∧ ¬ ("u1" ∈ list_members "r1" out.1)
  ∧ (∀ r, r ≠ "r1" → list_members r out.1 = list_members r st)
  ∧ (userSessions out.1 = userSessions st
     ∨ ∃ sid s, (sid, s) ∈ userSessions st
                ∧ s_userId s = "u1" ∧ s_roomId s = "r1"
                ∧ userSessions out.1 = map_delete sid (userSessions st)).
Proof.
  intros st.
  apply (leave_room_removes_the_member (mkClock 3000 "zzzzzzzzz")
           "r1" "u1" st); reflexivity.
Defined.

(** X7: a request that is not answered 200 leaves the store as it was;
    a POST request never changes the rooms nor the set of session ids; and
    [get-room-users] never changes the store. *)
Theorem rejected_requests_change_nothing c q req st :
  ((GET c q st).1 = st ∨ status (GET c q st).2 = 200)
  ∧ ((POST c req st).1 = st ∨ status (POST c req st).2 = 200)
  ∧ rooms (POST c req st).1 = rooms st
  ∧ fst <$> userSessions (POST c req st).1 = fst <$> userSessions st
  ∧ (q_action q = Some "get-room-users" → (GET c q st).1 = st).
Proof.
  assert (Hping : ∀ t sid,
            ((ping t sid st).1 = st ∨ status (ping t sid st).2 = 200)
            ∧ rooms (ping t sid st).1 = rooms st
            ∧ fst <$> userSessions (ping t sid st).1 = fst <$> userSessions st).
  { intros t sid. unfold ping. destruct (present sid); [|by split; [left|]].
    destruct (map_get _ _) as [s|] eqn:E; [|by split; [left|]]. simpl.
    split; [by right|]. split; [done|]. apply map_set_keys.
    apply list_elem_of_fmap. exists (default "" sid, s).
    split; [done|]. by apply map_get_elem. }
  split; [|split; [|split; [|split]]].
  - destruct (GET_cases c q st)
      as [->|[(r & u & _ & _ & ->)|[(r & u & ->)|(k & ->)]]];
      [by left|by right|by right|apply Hping].
  - unfold POST. destruct req as [p|]; [|by left].
    repeat (destruct (is_action _ _); [by left|]).
    destruct (is_action _ _); [apply Hping|by left].
  - unfold POST. destruct req as [p|]; [|done].
    repeat (destruct (is_action _ _); [done|]).
    destruct (is_action _ _); [apply Hping|done].
  - unfold POST. destruct req as [p|]; [|done].
    repeat (destruct (is_action _ _); [done|]).
    destruct (is_action _ _); [apply Hping|done].
  - intros Hq. unfold GET, is_action. rewrite Hq.
    rewrite bool_decide_eq_false_2 by done.
    rewrite bool_decide_eq_true_2 by done.
    by destruct (present (q_roomId q)).
Qed.

Lemma rejected_requests_change_nothing_witness :
  let st := after [OJoin (mkClock 1000 "k3x9q2m1a") "r1" "u1"] in
  (GET (mkClock 2000 "zzzzzzzzz")
     (mkQuery (Some "get-room-users") (Some "r1") None None) st).1 = st.
Proof.
  intros st.
  pose proof (rejected_requests_change_nothing (mkClock 2000 "zzzzzzzzz")
                (mkQuery (Some "get-room-users") (Some "r1") None None)
                None st) as (_ & _ & _ & _ & H).
  apply H. reflexivity.
Defined.

End EndpointFacts.

(** ** Invariants of the transport *)

Section TransportFacts.
Import JS Socket Transport.

Lemma run_invariant (I : APISocket → Prop) :
  (∀ a s s' out, I s → step a s = Some (s', out) → I s') →
  ∀ acts s s' out, I s → run acts s = Some (s', out) → I s'.
Proof.
  intros Hstep acts. induction acts as [|a acts IH]; intros s s' out Hi.
  - by intros [= <- _].
  - cbn [run]. destruct (step a s) as [[s1 out1]|] eqn:E; [|done].
    destruct (run acts s1) as [[s2 out2]|] eqn:E2; [|done].
    intros [= <- _]. eapply IH; [|exact E2]. by eapply Hstep.
Qed.

Lemma step_cases a s s' out :
  step a s = Some (s', out) →
  (∃ r u, a = AEmitJoin r u ∧ (s', out) = emit_join r u s)
  ∨ (∃ r d, a = AJoinAnswer r d
            ∧ (s', out) = join_answer r d
                (set_joinsInFlight (remove_first r (joinsInFlight s)) s))
  ∨ (∃ res, a = ATick res ∧ pollingInterval s = true
            ∧ (s', out) = poll_tick res s)
  ∨ (∃ d rest, a = ARetryFire ∧ retryTimers s = d :: rest
               ∧ (s', out) = retry_fire (set_retryTimers rest s))
  ∨ (a = ADisconnect ∧ (s', out) = disconnect s).
Proof.
  destruct a as [r u|r d|res| |]; cbn [step].
  - intros Heq%(inj Some). left. by exists r, u.
  - case_bool_decide; [|done]. intros Heq%(inj Some). right. left.
    by exists r, d.
  - destruct (pollingInterval s) eqn:E; [|done]. intros Heq%(inj Some).
    right. right. left. by exists res.
  - destruct (retryTimers s) as [|d rest] eqn:E; [done|].
    intros Heq%(inj Some). right. right. right. left. by exists d, rest.
  - intros Heq%(inj Some). right. right. right. by right.
Qed.

Lemma backoff_handleReconnect s :
  backoff_bounded s → backoff_bounded (handleReconnect s).1.
Proof.
  intros (Ha & Ht & Hc). unfold handleReconnect.
  case_bool_decide as Hm; simpl; [done|].
  unfold backoff_bounded, maxReconnectAttempts in *. simpl.
  split; [lia|]. split; [|done].
  apply Forall_app. split; [done|]. apply Forall_singleton.
  exists (S (reconnectAttempts s)). split; [lia|done].
Qed.

Lemma backoff_step a s s' out :
  backoff_bounded s → step a s = Some (s', out) → backoff_bounded s'.
Proof.
  intros Hb Hs.
  destruct (step_cases _ _ _ _ Hs)
    as [(r & u & _ & Heq)|[(r & d & _ & Heq)|[(res & _ & _ & Heq)|
        [(d & rest & _ & Ht & Heq)|[_ Heq]]]]].
  - injection Heq as -> _. exact Hb.
  - destruct Hb as (Ha & Ht & Hc).
    destruct d as [sid us|err|msg]; injection Heq as -> _.
    + unfold startPolling. simpl.
      destruct (pollingInterval s); (split; [simpl; lia|]);
        (split; [done|simpl; lia]).
    + done.
    + done.
  - unfold poll_tick in Heq.
    destruct (negb _ || negb _); [by injection Heq as -> _|].
    destruct res as [us| | |].
    + by injection Heq as -> _.
    + by injection Heq as -> _.
    + pose proof (backoff_handleReconnect s Hb) as H.
      destruct (handleReconnect s). by injection Heq as -> _.
    + pose proof (backoff_handleReconnect s Hb) as H.
      destruct (handleReconnect s). by injection Heq as -> _.
  - destruct Hb as (Ha & Hf & Hc). rewrite Ht in Hf.
    apply Forall_cons in Hf as [_ Hf].
    unfold retry_fire in Heq.
    destruct (present _ && present _); by injection Heq as -> _.
  - destruct Hb as (Ha & Hf & Hc). injection Heq as -> _.
    unfold stopPolling. by destruct (pollingInterval s).
Qed.

Lemma live_step a s s' out :
  connected_is_live s → step a s = Some (s', out) → connected_is_live s'.
Proof.
  unfold connected_is_live. intros Hl Hs.
  destruct (step_cases _ _ _ _ Hs)
    as [(r & u & _ & Heq)|[(r & d & _ & Heq)|[(res & _ & Hp & Heq)|
        [(d & rest & _ & Ht & Heq)|[_ Heq]]]]].
  - injection Heq as -> _. exact Hl.
  - destruct d as [sid us|err|msg]; injection Heq as -> _.
    + intros _. unfold startPolling. simpl.
      destruct (pollingInterval s) eqn:E; simpl;
        (split; [done|by eexists]).
    + exact Hl.
    + exact Hl.
  - unfold poll_tick in Heq.
    destruct (negb _ || negb _); [by injection Heq as -> _|].
    destruct res as [us| | |].
    + by injection Heq as -> _.
    + by injection Heq as -> _.
    + unfold handleReconnect in Heq.
      case_bool_decide; by injection Heq as -> _.
    + unfold handleReconnect in Heq.
      case_bool_decide; by injection Heq as -> _.
  - unfold retry_fire in Heq.
    destruct (present _ && present _); by injection Heq as -> _.
  - injection Heq as -> _. done.
Qed.

(** X9: whatever the application, the network and the timers do to a new
    transport, the retry counter stays at most 5, every retry timer armed
    has a delay of 1000 ms times a count between 1 and 5, and a counter
    above 0 goes with [isConnected] being false. *)
Theorem reconnection_is_bounded acts s out :
  run acts constructor = Some (s, out) → backoff_bounded s.
Proof.
  apply (run_invariant backoff_bounded); [apply backoff_step|].
  unfold backoff_bounded, maxReconnectAttempts. simpl.
  split; [lia|]. split; [done|lia].
Qed.

Lemma reconnection_is_bounded_witness :
  let acts := [AEmitJoin "r1" "u2";
               AJoinAnswer "r1"
                 (JoinSuccess "session_1000_k3x9q2m1a" (Some ["u1"; "u2"]));
               ATick PollUsersThrows; ATick PollPingThrows] in
  ∃ s out, run acts constructor = Some (s, out) ∧ backoff_bounded s.
Proof.
  intros acts. eexists _, _. split; [vm_compute; reflexivity|].
  eapply (reconnection_is_bounded acts). vm_compute; reflexivity.
Defined.

(** X10: whatever happens to a new transport, while it reports
    [isConnected] its poll timer is armed and it has a session id. *)
Theorem connected_transport_polls acts s out :
  run acts constructor = Some (s, out) → connected_is_live s.
Proof.
  apply (run_invariant connected_is_live); [apply live_step|]. done.
Qed.

Lemma connected_transport_polls_witness :
  let acts := [AEmitJoin "r1" "u2";
               AJoinAnswer "r1"
                 (JoinSuccess "session_1000_k3x9q2m1a" (Some ["u1"; "u2"]));
               ATick (PollUsers ["u1"; "u2"])] in
  ∃ s out, run acts constructor = Some (s, out) ∧ connected_is_live s.
Proof.
  intros acts. eexists _, _. split; [vm_compute; reflexivity|].
  eapply (connected_transport_polls acts). vm_compute; reflexivity.
Defined.

End TransportFacts.

(** ** Events of the transport *)

Section TransportMoreFacts.
Import JS Socket Transport.

Lemma presence_of_handleReconnect s e :
  e ∈ triggered (handleReconnect s).2 → is_presence e = false.
Proof.
  unfold handleReconnect. case_bool_decide; simpl;
    by intros ->%list_elem_of_singleton.
Qed.

(** X11: no step of the transport triggers [user-connected] or
    [user-leave] for the id it holds as its own. *)
Theorem no_presence_event_about_self a s s' out u :
  step a s = Some (s', out) →
  EUserConnected u ∈ triggered out ∨ EUserLeave u ∈ triggered out →
  userId s' ≠ Some u.
Proof.
  intros Hs Hin.
  assert (Hp : ∃ e, e ∈ triggered out ∧ is_presence e = true
                    ∧ (e = EUserConnected u ∨ e = EUserLeave u)).
  { destruct Hin; eexists; eauto. }
  clear Hin. destruct Hp as (e & Hin & Hpres & He).
  destruct (step_cases _ _ _ _ Hs)
    as [(r & u' & _ & Heq)|[(r & d & _ & Heq)|[(res & _ & Hp & Heq)|
        [(d & rest & _ & Ht & Heq)|[_ Heq]]]]].
  - injection Heq as -> ->. simpl in Hin.
    apply list_elem_of_singleton in Hin. by subst e.
  - destruct d as [sid us|err|msg]; injection Heq as -> ->.
    + simpl in Hin. rewrite triggered_connected in Hin.
      rewrite !elem_of_cons in Hin.
      destruct Hin as [->|[->|Hin]]; [done|done|].
      apply list_elem_of_fmap in Hin as (v & -> & [Hv _]%list_elem_of_filter).
      simpl in Hv. unfold startPolling. simpl.
      destruct He as [[= ->]|?]; [|done].
      by destruct (pollingInterval s).
    + simpl in Hin. apply list_elem_of_singleton in Hin. by subst e.
    + simpl in Hin. apply list_elem_of_singleton in Hin. by subst e.
  - unfold poll_tick in Heq.
    destruct (negb _ || negb _); [injection Heq as -> ->|].
    { by apply elem_of_nil in Hin. }
    destruct res as [us| | |].
    + injection Heq as -> ->. simpl in *. rewrite triggered_Trig in Hin.
      unfold poll_diff in Hin.
      apply elem_of_app in Hin as [Hin|Hin];
        apply list_elem_of_fmap in Hin
          as (v & -> & [[_ Hv] _]%list_elem_of_filter);
        destruct He as [[= ->]|[= ->]]; done.
    + injection Heq as -> ->. by apply elem_of_nil in Hin.
    + pose proof (presence_of_handleReconnect s e) as H.
      destruct (handleReconnect s). injection Heq as -> ->.
      simpl in *. rewrite H in Hpres; done.
    + pose proof (presence_of_handleReconnect s e) as H.
      destruct (handleReconnect s). injection Heq as -> ->.
      simpl in *. rewrite H in Hpres; done.
  - unfold retry_fire in Heq.
    destruct (present _ && present _); injection Heq as -> ->.
    + simpl in Hin. apply list_elem_of_singleton in Hin. by subst e.
    + by apply elem_of_nil in Hin.
  - injection Heq as -> ->. unfold disconnect in Hin. simpl in Hin.
    destruct (present _ && present _); simpl in Hin;
      apply list_elem_of_singleton in Hin; by subst e.
Qed.

Lemma no_presence_event_about_self_witness :
  let s := mkSocket (Some "session_1000_k3x9q2m1a") (Some "r1") (Some "u1")
             ∅ true true false connected 0 None [] [] in
  userId (poll_tick (PollUsers ["u1"; "u2"]) s).1 ≠ Some "u2".
Proof.
  intros s.
  apply (no_presence_event_about_self (ATick (PollUsers ["u1"; "u2"])) s
           (poll_tick (PollUsers ["u1"; "u2"]) s).1
           (poll_tick (PollUsers ["u1"; "u2"]) s).2 "u2").
  - reflexivity.
  - left. vm_compute. apply list_elem_of_singleton. reflexivity.
Defined.

(** X12: a successful [join-room] does not record the members it reports,
    so the first poll of a transport without a snapshot reports again every
    other member that is still in the room: both the answer and the poll
    trigger [user-connected] for it. *)
Theorem first_poll_rediscovers_members s r sid us snapshot v :
  r ∈ joinsInFlight s → lastKnownUsers s = None →
  truthy sid = true → present (roomId s) = true →
  v ∈ us → v ∈ snapshot → userId s ≠ Some v →
  ∃ s1 out1 s2 out2,
    step (AJoinAnswer r (JoinSuccess sid (Some us))) s = Some (s1, out1)
    ∧ step (ATick (PollUsers snapshot)) s1 = Some (s2, out2)
    ∧ EUserConnected v ∈ triggered out1
    ∧ EUserConnected v ∈ triggered out2.
Proof.
  intros Hr Hl Hsid Hroom Hus Hsn Hv. cbn [step].
  rewrite bool_decide_eq_true_2 by done.
  set (ja := join_answer r (JoinSuccess sid (Some us))
               (set_joinsInFlight (remove_first r (joinsInFlight s)) s)).
  assert (Hs1 : pollingInterval ja.1 = true ∧ sessionId ja.1 = Some sid
                ∧ roomId ja.1 = roomId s ∧ userId ja.1 = userId s
                ∧ lastKnownUsers ja.1 = None).
  { unfold ja, join_answer, startPolling. simpl.
    destruct (pollingInterval s) eqn:E; simpl; by rewrite ?E, ?Hl. }
  destruct Hs1 as (Hp & Hse & Hro & Hu & Hlk).
  assert (Hout1 : EUserConnected v ∈ triggered ja.2).
  { unfold ja. simpl. rewrite triggered_connected. right. right.
    apply list_elem_of_fmap. exists v. split; [done|].
    by apply list_elem_of_filter. }
  clearbody ja. destruct ja as [s1 out1]. simpl in *.
  exists s1, out1, (poll_tick (PollUsers snapshot) s1).1,
         (poll_tick (PollUsers snapshot) s1).2.
  split; [done|]. split; [rewrite Hp; by destruct (poll_tick _ _)|].
  split; [done|].
  unfold poll_tick. rewrite Hse, Hro. simpl. rewrite Hsid, Hroom. simpl.
  rewrite triggered_Trig, Hlk, Hu. unfold poll_diff. simpl.
  apply elem_of_app. left. apply list_elem_of_fmap. exists v.
  split; [done|]. apply list_elem_of_filter.
  split; [|by apply new_Set_elem].
  split; [apply not_elem_of_nil|done].
Qed.

Lemma first_poll_rediscovers_members_witness :
  let s := mkSocket None (Some "r1") (Some "u2") ∅ false false true
             connecting 0 None ["r1"] [] in
  ∃ s1 out1 s2 out2,
    step (AJoinAnswer "r1"
            (JoinSuccess "session_1000_k3x9q2m1a" (Some ["u1"; "u2"]))) s
    = Some (s1, out1)
    ∧ step (ATick (PollUsers ["u1"; "u2"])) s1 = Some (s2, out2)
    ∧ EUserConnected "u1" ∈ triggered out1
    ∧ EUserConnected "u1" ∈ triggered out2.
Proof.
  intros s.
  apply (first_poll_rediscovers_members s "r1" "session_1000_k3x9q2m1a"
           ["u1"; "u2"] ["u1"; "u2"] "u1");
    try reflexivity; try discriminate; by_computation.
Defined.

(** X13: a [join-room] that is refused or whose request fails triggers
    [connect_error] and nothing else, sends nothing, and leaves the poll
    timer, the session id and [isConnected] as they were; after a refusal
    the transport is in state [error], after a failed request it stays
    [connecting]. *)
Theorem failed_join_arms_nothing r u d s :
  (∀ sid us, d ≠ JoinSuccess sid us) →
  let s1 := (emit_join r u s).1 in
  ∃ s2 out,
    step (AJoinAnswer r d) s1 = Some (s2, out)
    ∧ pollingInterval s2 = pollingInterval s
    ∧ sessionId s2 = sessionId s
    ∧ isConnected s2 = isConnected s
    ∧ fetched out = []
    ∧ (∃ msg, triggered out = [EConnectError msg])
    ∧ match d with
      | JoinThrows _ =>
          isConnecting s2 = true ∧ connectionStatus s2 = connecting
      | _ => isConnecting s2 = false ∧ connectionStatus s2 = error
      end.
Proof.
  intros Hd s1. subst s1. cbn [step]. unfold emit_join. simpl.
  rewrite bool_decide_eq_true_2
    by (apply elem_of_app; right; by apply list_elem_of_singleton).
  destruct d as [sid us|err|msg]; [by destruct (Hd sid us)|..];
    do 2 eexists; (split; [reflexivity|]); simpl; repeat split; eauto.
Qed.

Lemma failed_join_arms_nothing_witness :
  ∃ s2 out,
    step (AJoinAnswer "r1" (JoinThrows "Failed to fetch"))
      (emit_join "r1" "u1" constructor).1 = Some (s2, out)
    ∧ pollingInterval s2 = false
    ∧ isConnecting s2 = true ∧ connectionStatus s2 = connecting
    ∧ triggered out = [EConnectError "Failed to fetch"].
Proof.
  destruct (failed_join_arms_nothing "r1" "u1" (JoinThrows "Failed to fetch")
              constructor)
    as (s2 & out & Hs & Hp & _ & _ & _ & (msg & Ht) & Hc & Hst);
    [discriminate|].
  exists s2, out. split; [exact Hs|]. split; [exact Hp|].
  split; [exact Hc|]. split; [exact Hst|].
  injection Hs as <- <-. reflexivity.
Defined.

Lemma first_occurrence_last (cb : Callback) (l l1 l2 : list Callback) :
  ¬ (cb ∈ l) → ¬ (cb ∈ l1) → l ++ [cb] = l1 ++ cb :: l2 →
  l1 = l ∧ l2 = [].
Proof.
  revert l1. induction l as [|x l IH]; intros [|y l1] Hout Hn Heq;
    simpl in *.
  - by injection Heq as ->.
  - injection Heq as -> Heq. destruct Hn. by left.
  - injection Heq as -> _. destruct Hout. by left.
  - injection Heq as -> Heq.
    apply not_elem_of_cons in Hout as [_ Hout].
    apply not_elem_of_cons in Hn as [_ Hn].
    by destruct (IH l1 Hout Hn Heq) as [-> ->].
Qed.

(** X14: [trigger] runs the callbacks of an event in the order of their
    registration, a registration for another event changing nothing; [off]
    of a callback that is not registered changes nothing, and registering
    such a callback and removing it again gives back what [trigger] did for
    every event. *)
Theorem listeners_run_in_registration_order (event : string)
    (cb : Callback) (s : APISocket) :
  (∀ e, event_name e = event →
        trigger e (on event cb s) = trigger e s ++ [(cb, e)])
  ∧ (∀ e, event_name e ≠ event → trigger e (on event cb s) = trigger e s)
  ∧ (registrations event cb s = 0%nat →
     off event cb s = s
     ∧ ∀ e, trigger e (off event cb (on event cb s)) = trigger e s).
Proof.
  split; [|split].
  - intros e <-. unfold trigger, on. simpl. rewrite lookup_insert_eq.
    rewrite fmap_app. by destruct (listeners s !! event_name e).
  - intros e Hne. unfold trigger, on. simpl. by rewrite lookup_insert_ne.
  - intros Hreg. unfold registrations in Hreg.
    assert (Hout : ¬ (cb ∈ default [] (listeners s !! event))).
    { intros Hin. apply length_zero_iff_nil in Hreg.
      assert (H : cb ∈ filter (λ c, c = cb) (default [] (listeners s !! event)))
        by (by apply list_elem_of_filter).
      rewrite Hreg in H. by apply elem_of_nil in H. }
    split.
    + unfold off. destruct (listeners s !! event) as [l|]; [|done].
      pose proof (indexOf_decompose cb l) as H.
      destruct (indexOf cb l) as [i|]; [|done].
      destruct H as (l1 & l2 & -> & _). destruct Hout. simpl.
      apply elem_of_app. right. by left.
    + intros e. unfold off, on. simpl. rewrite lookup_insert_eq.
      set (l := default [] (listeners s !! event)) in *.
      pose proof (indexOf_decompose cb (l ++ [cb])) as H.
      destruct (indexOf cb (l ++ [cb])) as [i|]; simpl.
      * destruct H as (l1 & l2 & Heq & Hn & -> & Hd).
        destruct (first_occurrence_last cb l l1 l2 Hout Hn Heq) as [-> ->].
        rewrite Hd, app_nil_r. unfold trigger. simpl.
        rewrite insert_insert_eq.
        destruct (decide (event_name e = event)) as [<-|Hne].
        -- rewrite lookup_insert_eq. unfold l.
           by destruct (listeners s !! event_name e).
        -- by rewrite lookup_insert_ne.
      * destruct H. apply elem_of_app. right. by left.
Qed.

Lemma listeners_run_in_registration_order_witness :
  let s := on "user-leave" 3%nat (on "user-connected" 4%nat constructor) in
  trigger (EUserConnected "u1") (on "user-connected" 7%nat s)
  = trigger (EUserConnected "u1") s ++ [(7%nat, EUserConnected "u1")]
  ∧ off "user-connected" 7%nat s = s
  ∧ trigger (EUserLeave "u1")
      (off "user-connected" 7%nat (on "user-connected" 7%nat s))
    = trigger (EUserLeave "u1") s.
Proof.
  intros s.
  pose proof (listeners_run_in_registration_order "user-connected" 7%nat s)
    as (H1 & _ & H3).
  split; [apply H1; reflexivity|].
  destruct H3 as [H3 H4]; [reflexivity|]. split; [exact H3|apply H4].
Defined.

End TransportMoreFacts.

(** ** The client's requests at the endpoint *)

Section WireFacts.
Import JS Socket Route Wire.

(** X8: the request by which the client leaves a room, sent by
    [leaveRoom] of the page, by [emit("user-leave")] or by [disconnect()],
    is a POST with action [leave-room], which the endpoint has no case for:
    it is answered 400 and the store stays as it was, the member included. *)
Theorem transport_leave_is_rejected c st p :
  (∃ myId roomId, leaveRoom true myId roomId = Some p)
  ∨ (∃ a b, emit_relay "user-leave" a b = Some p)
  ∨ (∃ s r, r ∈ fetched (disconnect s).2 ∧ posted r = Some p) →
  POST c (Some p) st = (st, fail 400 "Invalid action").
Proof.
  intros [(myId & roomId & H)|[(a & b & H)|(s & r & Hin & H)]].
  - unfold leaveRoom in H. destruct (negb true || _); [done|].
    by injection H as <-.
  - by injection H as <-.
  - unfold disconnect in Hin. simpl in Hin.
    destruct (present _ && present _); simpl in Hin;
      [|by apply elem_of_nil in Hin].
    apply list_elem_of_singleton in Hin. subst r. by injection H as <-.
Qed.

Lemma transport_leave_is_rejected_witness :
  let st := Presence.after
              [OJoin (mkClock 1000 "k3x9q2m1a") "r1" "u1"] in
  let p := Wire.makeAPICall "leave-room" (Some "r1") (Some "u1") None in
  POST (mkClock 2000 "zzzzzzzzz") (Some p) st
  = (st, fail 400 "Invalid action").
Proof.
  intros st p.
  apply (transport_leave_is_rejected (mkClock 2000 "zzzzzzzzz") st p).
  left. exists "u1", "r1". reflexivity.
Defined.

(** X20: the toggle relays of the transport reach the endpoint with the
    ids in the right fields: the request is answered 404 when the room is
    not in the map and otherwise 200 with the other members of the room,
    the caller never among them; the store stays as it was. *)
Theorem transport_toggle_is_relayed c st event action myId roomId :
  (event, action) = ("user-toggle-audio", "toggle-audio")
  ∨ (event, action) = ("user-toggle-video", "toggle-video") →
  truthy myId = true → truthy roomId = true →
  ∃ p, emit_relay event (Some myId) (Some roomId) = Some p
       ∧ p = makeAPICall action (Some roomId) (Some myId) None
       ∧ POST c (Some p) st
         = (st, match rooms st !! roomId with
                | Some _ =>
                    ok (BToggled event myId
                          (filter (λ u, u ≠ myId) (list_members roomId st)))
                | None => fail 404 "Room not found"
                end)
       ∧ ¬ (myId ∈ filter (λ u, u ≠ myId) (list_members roomId st)).
Proof.
  intros Hev Hm Hr.
  assert (Hno : ¬ (myId ∈ filter (λ u, u ≠ myId) (list_members roomId st))).
  { by intros [? _]%list_elem_of_filter. }
  assert (Htoggle : ∀ ev, toggle ev
              (makeAPICall action (Some roomId) (Some myId) None) st
            = match rooms st !! roomId with
              | Some _ =>
                  ok (BToggled ev myId
                        (filter (λ u, u ≠ myId) (list_members roomId st)))
              | None => fail 404 "Room not found"
              end).
  { intros ev. unfold toggle, list_members, get_room_users. simpl.
    rewrite Hr, Hm. simpl.
    destruct (rooms st !! roomId) as [us|]; [|done]. simpl.
    by rewrite ids_filter. }
  destruct Hev as [[= -> ->]|[= -> ->]];
    (eexists; split; [reflexivity|]; split; [reflexivity|];
     split; [|done]); unfold POST, is_action; simpl p_action.
  - rewrite bool_decide_eq_true_2 by done. by rewrite Htoggle.
  - rewrite bool_decide_eq_false_2 by done.
    rewrite bool_decide_eq_true_2 by done. by rewrite Htoggle.
Qed.

Lemma transport_toggle_is_relayed_witness :
  let st := Presence.after
              [OJoin (mkClock 1000 "k3x9q2m1a") "r1" "u1";
               OJoin (mkClock 2000 "p0o9i8u7y") "r1" "u2"] in
  ∃ p, emit_relay "user-toggle-audio" (Some "u1") (Some "r1") = Some p
       ∧ POST (mkClock 3000 "zzzzzzzzz") (Some p) st
         = (st, ok (BToggled "user-toggle-audio" "u1" ["u2"])).
Proof.
  intros st.
  destruct (transport_toggle_is_relayed (mkClock 3000 "zzzzzzzzz") st
              "user-toggle-audio" "toggle-audio" "u1" "r1")
    as (p & Hp & _ & Hpost & _); [by left|reflexivity|reflexivity|].
  exists p. split; [exact Hp|]. rewrite Hpost. reflexivity.
Defined.

End WireFacts.

(** ** Side channels *)

Section ChannelFacts.
Import JS Channels.

Lemma Set_delete_elem x y (s : list string) :
  x ∈ Set_delete y s ↔ x ∈ s ∧ x ≠ y.
Proof. unfold Set_delete. rewrite list_elem_of_filter. tauto. Qed.

Lemma map_set_key_elem {V} (m : list (string * V)) k v k' :
  k' ∈ fst <$> map_set k v m ↔ k' = k ∨ k' ∈ fst <$> m.
Proof.
  induction m as [|[k0 v0] m IH]; simpl.
  - rewrite list_elem_of_singleton, elem_of_nil. tauto.
  - case_bool_decide as Hd; simpl; rewrite !elem_of_cons.
    + subst. tauto.
    + rewrite IH. tauto.
Qed.

Lemma map_delete_key_elem {V} (m : list (string * V)) k k' :
  NoDup (fst <$> m) →
  k' ∈ fst <$> map_delete k m ↔ k' ∈ fst <$> m ∧ k' ≠ k.
Proof.
  intros Hnd. rewrite !list_elem_of_fmap. split.
  - intros ([k1 v1] & -> & Hin). apply map_delete_elem in Hin as [Hin Hne];
      [|done].
    split; [by exists (k1, v1)|done].
  - intros [([k1 v1] & -> & Hin) Hne]. exists (k1, v1). split; [done|].
    by apply map_delete_elem.
Qed.

Lemma peers_agree_step myId h i : peers_agree h → peers_agree (step myId h i).
Proof.
  intros [Hnd Hp]. destruct i as [p ini thr|p label|c|c|p]; simpl.
  - unfold setupDataChannel. case_bool_decide; [done|].
    destruct ini; [destruct thr|]; done.
  - unfold handleDataChannel. by destruct (_ && _).
  - unfold onopen. destruct (channels h !! c) as [p|]; [|done].
    split; simpl; [by apply map_set_keys_NoDup|].
    intros q. rewrite Set_add_elem, map_set_key_elem, Hp. tauto.
  - unfold onclose. destruct (channels h !! c) as [p|]; [|done].
    split; simpl; [by apply map_delete_keys|].
    intros q. rewrite Set_delete_elem, map_delete_key_elem, Hp by done.
    tauto.
  - split; simpl; [by apply map_delete_keys|].
    intros q. rewrite Set_delete_elem, map_delete_key_elem, Hp by done.
    tauto.
Qed.

Lemma run_snoc myId inputs i h :
  run myId (inputs ++ [i]) h = step myId (run myId inputs h) i.
Proof. unfold run. by rewrite foldl_app. Qed.

(** X15: after any sequence of channel set-ups, openings, closings and
    clean-ups, the peers in [connectedPeers] are exactly the peers that
    have an entry in [dataChannels]; the hook reports itself connected
    exactly when it holds a channel. *)
Theorem connected_peers_are_channel_keys myId inputs :
  let h := run myId inputs initial in
  (∀ p, p ∈ connectedPeers h ↔ p ∈ fst <$> dataChannels h)
  ∧ (connectedPeers h = [] ↔ dataChannels h = []).
Proof.
  intros h.
  assert (Ha : peers_agree h).
  { subst h. induction inputs as [|i inputs IH] using rev_ind.
    - split; [apply NoDup_nil_2|done].
    - rewrite run_snoc. by apply peers_agree_step. }
  destruct Ha as [_ Hp]. split; [done|]. split; intros Hnil.
  - destruct (dataChannels h) as [|[p c] l] eqn:E; [done|].
    assert (Hin : p ∈ connectedPeers h) by (apply Hp; by left).
    rewrite Hnil in Hin. by apply elem_of_nil in Hin.
  - destruct (connectedPeers h) as [|p l] eqn:E; [done|].
    assert (Hin : p ∈ fst <$> dataChannels h) by (apply Hp; by left).
    rewrite Hnil in Hin. by apply elem_of_nil in Hin.
Qed.

Lemma channelKey_inj myId p q : channelKey myId p = channelKey myId q → p = q.
Proof.
  unfold channelKey. induction myId as [|a myId IH]; simpl; intros H.
  - by injection H.
  - injection H as H. by apply IH.
Qed.

Lemma channels_grow myId h i :
  ∃ more, channels (step myId h i) = channels h ++ more.
Proof.
  destruct i as [p ini thr|p label|c|c|p]; simpl.
  - unfold setupDataChannel. case_bool_decide; [by exists []; rewrite app_nil_r|].
    destruct ini; [destruct thr|]; simpl; eauto;
      by exists []; rewrite app_nil_r.
  - unfold handleDataChannel. destruct (_ && _); simpl; eauto.
    by exists []; rewrite app_nil_r.
  - unfold onopen. destruct (channels h !! c); by exists []; rewrite app_nil_r.
  - unfold onclose. destruct (channels h !! c); by exists []; rewrite app_nil_r.
  - by exists []; rewrite app_nil_r.
Qed.

Lemma creations_snoc (p q : string) (l : list string) :
  length (filter (λ x, x = p) (l ++ [q]))
  = (length (filter (λ x, x = p) l) + if bool_decide (q = p) then 1 else 0)%nat.
Proof.
  rewrite filter_app, length_app. f_equal.
  case_bool_decide; [by rewrite filter_cons_True|by rewrite filter_cons_False].
Qed.

Lemma mark_kept_by_step myId p h i :
  channelKey myId p ∈ channelCreation h →
  ¬ releases p (channels (step myId h i)) i →
  channelKey myId p ∈ channelCreation (step myId h i)
  ∧ creations p (step myId h i) = creations p h.
Proof.
  intros Hk Hrel. destruct i as [q ini thr|q label|c|c|q]; simpl in *.
  - unfold setupDataChannel. case_bool_decide as Hq; [done|].
    assert (Hne : q ≠ p) by (by intros ->).
    assert (Hkey : channelKey myId p ≠ channelKey myId q).
    { intros Heq. by apply Hne, (channelKey_inj myId). }
    unfold creations.
    destruct ini; [destruct thr|]; simpl.
    + split.
      * apply Set_delete_elem. split; [|done].
        apply Set_add_elem. by right.
      * rewrite (creations_snoc p q), bool_decide_eq_false_2 by done. lia.
    + split; [apply Set_add_elem; by right|].
      rewrite (creations_snoc p q), bool_decide_eq_false_2 by done. lia.
    + split; [apply Set_add_elem; by right|done].
  - unfold handleDataChannel. by destruct (_ && _).
  - unfold onopen. by destruct (channels h !! c).
  - unfold onclose in *. destruct (channels h !! c) as [q|] eqn:E; [|done].
    simpl in *. split; [|done]. apply Set_delete_elem. split; [done|].
    intros Heq. apply channelKey_inj in Heq. by subst.
  - split; [|done]. apply Set_delete_elem. split; [done|].
    intros Heq. apply channelKey_inj in Heq. by subst.
Qed.

(** X16: once the creation mark of a peer is set, it stays set and no
    [createDataChannel] is called for that peer, whatever set-ups are
    requested, until a channel of that peer closes or the peer is cleaned
    up. *)
Theorem creation_mark_blocks_creation myId p inputs h :
  channelKey myId p ∈ channelCreation h →
  Forall (λ i, ¬ releases p (channels (run myId inputs h)) i) inputs →
  channelKey myId p ∈ channelCreation (run myId inputs h)
  ∧ creations p (run myId inputs h) = creations p h.
Proof.
  intros Hk. induction inputs as [|i inputs IH] using rev_ind; [done|].
  rewrite run_snoc. intros [Hall Hi]%Forall_app.
  rewrite Forall_singleton in Hi.
  destruct (channels_grow myId (run myId inputs h) i) as [more Hmore].
  destruct IH as [Hk' Hc'].
  { eapply Forall_impl; [exact Hall|]. intros j Hj Hrel. apply Hj.
    destruct j as [| | |c|]; simpl in *; try done.
    rewrite Hmore. by apply lookup_app_l_Some. }
  destruct (mark_kept_by_step myId p _ i Hk' Hi) as [H1 H2].
  split; [done|]. by rewrite H2.
Qed.

Lemma creation_mark_blocks_creation_witness :
  let h := run "u2" [Setup "u1" true false] initial in
  let inputs := [Opened 0; Setup "u1" true false; Setup "u3" false false;
                 Setup "u1" false false] in
  channelKey "u2" "u1" ∈ channelCreation (run "u2" inputs h)
  ∧ creations "u1" (run "u2" inputs h) = creations "u1" h.
Proof.
  intros h inputs.
  apply (creation_mark_blocks_creation "u2" "u1" inputs h).
  - vm_compute. apply list_elem_of_singleton. reflexivity.
  - repeat (apply Forall_cons; split; [simpl; tauto|]). apply Forall_nil_2.
Defined.

End ChannelFacts.

(** ** Messages between participants *)

Section ChatMoreFacts.
Import JS Chat.

(** X17: the object [sendMessage] writes to a channel for a text that is
    not blank, handed to [handleIncomingMessage] of a participant whose log
    does not have its id, is appended there with the same id, the trimmed
    text and the sender's id and name, marked as own only if the receiver
    has the sender's id; a sender whose own id is empty writes objects that
    every receiver drops. *)
Theorem sent_message_is_accepted_by_peers sender receiver env env'
    text chans logS logR peer d :
  whitespace_only text = false →
  (peer, d) ∈ written (sendMessage sender env (Some text) chans logS) →
  (truthy sender = false →
   handleIncomingMessage receiver env' (Some d) logR = logR)
  ∧ (truthy sender = true →
     well_formed d
     ∧ (¬ (default "" (d_id d) ∈ msg_id <$> logR) →
        ∃ m, handleIncomingMessage receiver env' (Some d) logR = logR ++ [m]
             ∧ Some (msg_id m) = d_id d
             ∧ msg_text m = Some (trim text)
             ∧ msg_senderId m = Some sender
             ∧ msg_senderName m = Some sender
             ∧ isOwn m = bool_decide (sender = receiver))).
Proof.
  intros Hb Hin. unfold sendMessage, sendMessage_by in Hin. simpl in Hin.
  assert (truthy text = true) as Ht by (by destruct text).
  rewrite Ht, trim_truthy, Hb in Hin. simpl in Hin.
  apply list_elem_of_fmap in Hin as (e & [= -> ->] & _).
  assert (Hid : truthy (sender +:+ "-" +:+ now env +:+ "-" +:+ random env)
                = true) by (by destruct sender).
  assert (Htx : truthy (trim text) = true) by (by rewrite trim_truthy, Hb).
  split.
  - intros Hs. unfold handleIncomingMessage. simpl. by rewrite Hs.
  - intros Hs. split; [by repeat split|].
    intros Hfresh. unfold handleIncomingMessage. simpl in *.
    rewrite Hs, Htx, Hid. simpl.
    unfold addMessage, or_else. simpl. rewrite Hid, Hs. simpl.
    rewrite bool_decide_eq_false_2 by (by rewrite Exists_id).
    eexists. split; [reflexivity|]. simpl. repeat split.
    apply bool_decide_ext. split; congruence.
Qed.

Lemma sent_message_is_accepted_by_peers_witness :
  let env := mkEnv "1730000000123" "0.4821" "2024-10-27T03:33:20.123Z" in
  let chans := [("u2", Some (mkChannel rs_open true))] in
  ∃ d m,
    ("u2", d) ∈ written (sendMessage "u1" env (Some " hi ") chans [])
    ∧ handleIncomingMessage "u2" env (Some d) [] = [] ++ [m]
    ∧ msg_text m = Some "hi" ∧ isOwn m = false.
Proof.
  intros env chans.
  assert (Hin : ("u2", mkData (Some "chat-message")
                         (Some "u1-1730000000123-0.4821") (Some "hi")
                         (Some "u1") (Some "u1")
                         (Some "2024-10-27T03:33:20.123Z"))
                ∈ written (sendMessage "u1" env (Some " hi ") chans [])).
  { vm_compute. apply list_elem_of_singleton. reflexivity. }
  destruct (sent_message_is_accepted_by_peers "u1" "u2" env env " hi "
              chans [] [] "u2" _ eq_refl Hin) as [_ H].
  destruct (H eq_refl) as [_ H'].
  destruct (H' (not_elem_of_nil _)) as (m & Hm & _ & Ht & _ & _ & Ho).
  eexists _, m. split; [exact Hin|]. split; [exact Hm|].
  split; [exact Ht|exact Ho].
Defined.

(** X18: a send or a reception leaves the messages already in the log
    where they are and adds at most one message, at the end; if the ids in
    the log were distinct they still are. *)
Theorem log_grows_at_the_end myId prev o :
  o ≠ OpClear →
  ∃ more, apply_op myId prev o = prev ++ more ∧ (length more ≤ 1)%nat
          ∧ (NoDup (msg_id <$> prev) →
             NoDup (msg_id <$> apply_op myId prev o)).
Proof.
  intros Ho.
  assert (Hadd : ∀ env data, ∃ more,
            addMessage myId env data prev = prev ++ more
            ∧ (length more ≤ 1)%nat).
  { intros env data. unfold addMessage. case_bool_decide.
    - exists []. rewrite app_nil_r. split; [done|simpl; lia].
    - eexists [_]. split; [done|simpl; lia]. }
  assert (Hnil : ∃ more : list ChatMessage,
            prev = prev ++ more ∧ (length more ≤ 1)%nat).
  { exists []. rewrite app_nil_r. split; [done|simpl; lia]. }
  destruct o as [env t chans|env p|]; [| |done]; simpl.
  - unfold sendMessage, sendMessage_by. destruct (_ || _); simpl.
    + destruct Hnil as (more & ? & ?). by exists more.
    + destruct (Hadd env (mkData (Some "chat-message")
                  (Some (myId +:+ "-" +:+ now env +:+ "-" +:+ random env))
                  (Some (trim (default "" t))) (Some myId) (Some myId)
                  (Some (iso env)))) as (more & Heq & Hlen).
      exists more. split; [done|]. split; [done|]. apply addMessage_NoDup.
  - unfold handleIncomingMessage.
    destruct p as [data|]; [|destruct Hnil as (more & ? & ?); by exists more].
    case_bool_decide;
      [|destruct Hnil as (more & ? & ?); by exists more].
    destruct (_ && _);
      [|destruct Hnil as (more & ? & ?); by exists more].
    destruct (Hadd env data) as (more & Heq & Hlen).
    exists more. split; [done|]. split; [done|]. apply addMessage_NoDup.
Qed.

Lemma log_grows_at_the_end_witness :
  let env := mkEnv "1730000000123" "0.4821" "2024-10-27T03:33:20.123Z" in
  ∃ more, apply_op "u1" [] (OpSend env (Some "hi") []) = [] ++ more
          ∧ (length more ≤ 1)%nat
          ∧ (NoDup (msg_id <$> []) →
             NoDup (msg_id <$> apply_op "u1" [] (OpSend env (Some "hi") []))).
Proof.
  intros env.
  apply (log_grows_at_the_end "u1" [] (OpSend env (Some "hi") [])).
  discriminate.
Defined.

End ChatMoreFacts.

(** ** Links of the page *)

Section LinkFacts.
Import Room Links.

Lemma linked_step st i : linked_have_players st → linked_have_players (step st i).
Proof.
  intros Hl. destruct i as [u|u|c n|c|c|u]; simpl; try done.
  - unfold onStream. destruct (calls st !! c) as [call|]; [|done].
    intros r. simpl. rewrite !lookup_insert. case_decide; [by eexists|apply Hl].
  - unfold onCloseOrError. destruct (calls st !! c) as [call|]; [|done].
    intros r. simpl. rewrite !lookup_delete. case_decide; [by intros [? ?]|apply Hl].
  - unfold onCloseOrError. destruct (calls st !! c) as [call|]; [|done].
    intros r. simpl. rewrite !lookup_delete. case_decide; [by intros [? ?]|apply Hl].
  - intros r. simpl. rewrite !lookup_delete. case_decide; [by intros [? ?]|apply Hl].
Qed.

(** X19: after any sequence of discoveries, calls, streams, closings,
    errors and departures, every remote that has a call filed in [users]
    has a player in [players]. *)
Theorem linked_remotes_have_players inputs :
  linked_have_players (run inputs initial).
Proof.
  unfold run.
  assert (H : ∀ st, linked_have_players st →
                    linked_have_players (foldl step st inputs)).
  { induction inputs as [|i inputs IH]; intros st Hst; [done|].
    simpl. by apply IH, linked_step. }
  apply H. intros r [c Hc]. simpl in Hc. by rewrite lookup_empty in Hc.
Qed.

End LinkFacts.
